(** * Graham stock valuation: a shallow embedding of [Graham.py]

    The script scrapes a price, an EPS figure, a growth estimate and a bond
    yield, parses them with Python's [decimal.Decimal], evaluates Graham's
    formula and prints a recommendation per ticker.

    Layout of the development:
    - [PyStr]: the few [str] methods the script calls;
    - [Dec]: the part of the [decimal] module the script relies on (values,
      the default context, construction from and conversion to text,
      [*], [+], [/] and the ordering comparisons);
    - the functions of [Graham.py], in source order;
    - the statements proved about them. *)

From Stdlib Require Import ZArith NArith QArith Qpower Qabs List Ascii String Bool Lia.
Import ListNotations.

Set Implicit Arguments.

Local Open Scope Z_scope.

(** Python text is modelled as a list of characters; the characters are the
    code points below 256. *)
Definition str := list ascii.

Definition lit (x : string) : str := list_ascii_of_string x.

(** ** Outcomes of Python calls *)

(** The exception classes that can reach the code under study. *)
Inductive exn : Type :=
| InvalidOperation
| DivisionByZero
| Overflow
| ValueError
| TypeError
| FileNotFoundError
| JSONDecodeError
| RequestException.

Inductive outcome (A : Type) : Type :=
| Return (a : A)
| Raise (e : exn).
Arguments Return {A} a.
Arguments Raise {A} e.

Definition bind {A B : Type} (m : outcome A) (k : A -> outcome B) : outcome B :=
  match m with
  | Return a => k a
  | Raise e => Raise e
  end.

Declare Scope py_scope.
Delimit Scope py_scope with py.
Notation "x <- m ;; k" := (bind m (fun x => k))
  (at level 61, m at next level, right associativity) : py_scope.

(** ** [str] methods *)
Module PyStr.

Definition comma : ascii := ","%char.
Definition percent : ascii := "%"%char.
Definition underscore : ascii := "_"%char.

(** [s.replace(c, '')] for a one-character [c]. *)
Definition remove_char (c : ascii) (s : str) : str :=
  filter (fun x => negb (Ascii.eqb x c)) s.

(** The characters [str.strip()] removes: TAB, LF, VT, FF, CR, the
    separators 0x1c-0x1f, SPACE, NEL and NBSP. *)
Definition is_space (c : ascii) : bool :=
  let n := N_of_ascii c in
  ((9 <=? n) && (n <=? 13) || (28 <=? n) && (n <=? 32)
   || (n =? 133) || (n =? 160))%N.

Fixpoint lstrip (p : ascii -> bool) (s : str) : str :=
  match s with
  | [] => []
  | c :: s' => if p c then lstrip p s' else s
  end.

Definition rstrip (p : ascii -> bool) (s : str) : str :=
  rev (lstrip p (rev s)).

(** [s.strip(chars)], with [p] the membership test of [chars]. *)
Definition strip_by (p : ascii -> bool) (s : str) : str :=
  rstrip p (lstrip p s).

(** [s.strip()] *)
Definition strip (s : str) : str := strip_by is_space s.

(** [s.strip('%')] *)
Definition strip_percent (s : str) : str :=
  strip_by (fun c => Ascii.eqb c percent) s.

(** ASCII lower-casing, for the case-insensitive keywords of numerals. *)
Definition lower (c : ascii) : ascii :=
  let n := N_of_ascii c in
  if ((65 <=? n) && (n <=? 90))%N then ascii_of_N (n + 32) else c.

Definition is_digit (c : ascii) : bool :=
  let n := N_of_ascii c in ((48 <=? n) && (n <=? 57))%N.

Definition digit_val (c : ascii) : N := (N_of_ascii c - 48)%N.

Definition digit_char (n : N) : ascii := ascii_of_N (48 + n).

(** [int(s)] on a string of digits. *)
Definition int_of_digits (s : str) : N :=
  fold_left (fun a c => (10 * a + digit_val c)%N) s 0%N.

Fixpoint digits_fuel (fuel : nat) (n : N) (acc : str) : str :=
  match fuel with
  | O => acc
  | S f =>
      let acc' := digit_char (n mod 10) :: acc in
      if (n <? 10)%N then acc' else digits_fuel f (n / 10) acc'
  end.

(** [str(n)] for a non-negative integer. *)
Definition str_of_N (n : N) : str :=
  digits_fuel (S (N.to_nat (N.log2 n))) n [].

(** ['%+d' % z] *)
Definition str_of_Z_signed (z : Z) : str :=
  (if z <? 0 then "-"%char else "+"%char) :: str_of_N (Z.abs_N z).

(** Longest prefix of digits, and the rest. *)
Fixpoint span_digits (s : str) : str * str :=
  match s with
  | [] => ([], [])
  | c :: s' =>
      if is_digit c then let (d, r) := span_digits s' in (c :: d, r)
      else ([], s)
  end.

Definition str_eqb (a b : str) : bool :=
  if list_eq_dec ascii_dec a b then true else false.

End PyStr.

(** ** The [decimal] module

    Values and the default context of Python's [decimal] module
    ([prec=28], [ROUND_HALF_EVEN], [Emin=-999999], [Emax=999999], traps on
    [InvalidOperation], [DivisionByZero] and [Overflow]).  A coefficient is
    kept as a natural number instead of its digit string; constructed values
    may carry any coefficient and exponent, results of arithmetic are brought
    into the context by [_fix]. *)
Module Dec.
Import PyStr.

Inductive Decimal : Type :=
| Finite (sign : bool) (coeff : N) (exp : Z)
| Inf (sign : bool)
| NaN (signaling : bool) (sign : bool) (payload : N).

Definition prec : Z := 28.
Definition Emax : Z := 999999.
Definition Emin : Z := -999999.
Definition Etiny : Z := Emin - prec + 1.
Definition Etop : Z := Emax - prec + 1.

(** [len(self._int)] *)
Definition ndigits (c : N) : Z := Z.of_nat (List.length (str_of_N c)).

Definition pow10 (k : Z) : N := (10 ^ Z.to_N k)%N.

Definition is_finite (d : Decimal) : bool :=
  match d with Finite _ _ _ => true | _ => false end.

Definition is_nan (d : Decimal) : bool :=
  match d with NaN _ _ _ => true | _ => false end.

(** [not self]: a finite zero. *)
Definition is_zero (d : Decimal) : bool :=
  match d with Finite _ c _ => (c =? 0)%N | _ => false end.

(** The rational number a finite value stands for (0 on specials). *)
Definition value (d : Decimal) : Q :=
  match d with
  | Finite s c e =>
      (if s then -1 else 1) * inject_Z (Z.of_N c) * Qpower (10 # 1) e
  | _ => 0
  end.

(** [Decimal(n)] for an [int]. *)
Definition of_Z (z : Z) : Decimal := Finite (z <? 0) (Z.abs_N z) 0.

(** Drop the last [drop] digits of [c], rounding half to even. *)
Definition round_half_even (c : N) (drop : Z) : N :=
  let p := pow10 drop in
  let q := (c / p)%N in
  let r := (c mod p)%N in
  if ((p <? 2 * r) || ((2 * r =? p) && N.odd q))%N then (q + 1)%N else q.

(** [_fix_nan]: keep the last [prec] digits of the payload. *)
Definition _fix_nan (signaling sign : bool) (payload : N) : Decimal :=
  NaN signaling sign (payload mod pow10 prec)%N.

(** [_fix]: round to [prec] digits and the exponent range of the context. *)
Definition _fix (d : Decimal) : outcome Decimal :=
  match d with
  | NaN sg s p => Return (_fix_nan sg s p)
  | Inf s => Return (Inf s)
  | Finite s c e =>
      if (c =? 0)%N then Return (Finite s 0 (Z.min (Z.max e Etiny) Emax))
      else
        let exp_min0 := ndigits c + e - prec in
        if Etop <? exp_min0 then Raise Overflow
        else
          let exp_min := Z.max exp_min0 Etiny in
          if e <? exp_min then
            let c' := round_half_even c (exp_min - e) in
            if prec <? ndigits c' then
              if Etop <? exp_min + 1 then Raise Overflow
              else Return (Finite s (c' / 10)%N (exp_min + 1))
            else Return (Finite s c' exp_min)
          else Return (Finite s c e)
  end.

(** [_check_nans]: a signalling NaN raises, a quiet one is the result. *)
Definition _check_nans (a b : Decimal) : option (outcome Decimal) :=
  match a, b with
  | NaN true _ _, _ => Some (Raise InvalidOperation)
  | _, NaN true _ _ => Some (Raise InvalidOperation)
  | NaN false s p, _ => Some (Return (_fix_nan false s p))
  | _, NaN false s p => Some (Return (_fix_nan false s p))
  | _, _ => None
  end.

(** [__mul__] *)
Definition mul (a b : Decimal) : outcome Decimal :=
  match _check_nans a b with
  | Some r => r
  | None =>
      match a, b with
      | Finite s1 c1 e1, Finite s2 c2 e2 =>
          _fix (Finite (xorb s1 s2) (c1 * c2) (e1 + e2))
      | Inf s1, Finite s2 c2 _ =>
          if (c2 =? 0)%N then Raise InvalidOperation
          else Return (Inf (xorb s1 s2))
      | Finite s1 c1 _, Inf s2 =>
          if (c1 =? 0)%N then Raise InvalidOperation
          else Return (Inf (xorb s1 s2))
      | Inf s1, Inf s2 => Return (Inf (xorb s1 s2))
      | _, _ => Raise InvalidOperation
      end
  end.

Definition signed (s : bool) (c : N) : Z :=
  if s then - Z.of_N c else Z.of_N c.

(** [__add__]: the operands are aligned to the smaller exponent, added
    exactly, and the sum is rounded.  (The implementation shortens a far
    smaller operand to a sticky digit before aligning; the rounded sum is
    the same.) *)
Definition add (a b : Decimal) : outcome Decimal :=
  match _check_nans a b with
  | Some r => r
  | None =>
      match a, b with
      | Finite s1 c1 e1, Finite s2 c2 e2 =>
          let e := Z.min e1 e2 in
          let z := signed s1 (c1 * pow10 (e1 - e))
                   + signed s2 (c2 * pow10 (e2 - e)) in
          let s := if z =? 0 then s1 && s2 else z <? 0 in
          _fix (Finite s (Z.abs_N z) e)
      | Inf s1, Inf s2 =>
          if Bool.eqb s1 s2 then Return (Inf s1) else Raise InvalidOperation
      | Inf s1, _ => Return (Inf s1)
      | _, Inf s2 => Return (Inf s2)
      | _, _ => Raise InvalidOperation
      end
  end.

(** The loop of [__truediv__] that strips trailing zeros of an exact
    quotient while the exponent is below the ideal one; [n] bounds the
    number of iterations by the distance to the ideal exponent. *)
Fixpoint strip_zeros (n : nat) (coeff : N) (exp : Z) : N * Z :=
  match n with
  | O => (coeff, exp)
  | S n' =>
      if (coeff mod 10 =? 0)%N then strip_zeros n' (coeff / 10)%N (exp + 1)
      else (coeff, exp)
  end.

(** [__truediv__] *)
Definition div (a b : Decimal) : outcome Decimal :=
  match _check_nans a b with
  | Some r => r
  | None =>
      match a, b with
      | Inf _, Inf _ => Raise InvalidOperation
      | Inf s1, Finite s2 _ _ => Return (Inf (xorb s1 s2))
      | Finite s1 _ _, Inf s2 => Return (Finite (xorb s1 s2) 0 Etiny)
      | Finite s1 c1 e1, Finite s2 c2 e2 =>
          let sign := xorb s1 s2 in
          if (c2 =? 0)%N then
            if (c1 =? 0)%N then Raise InvalidOperation
            else Raise DivisionByZero
          else if (c1 =? 0)%N then _fix (Finite sign 0 (e1 - e2))
          else
            let shift := ndigits c2 - ndigits c1 + prec + 1 in
            let exp := e1 - e2 - shift in
            let num := if 0 <=? shift then (c1 * pow10 shift)%N else c1 in
            let den := if 0 <=? shift then c2 else (c2 * pow10 (- shift))%N in
            let coeff := (num / den)%N in
            let remainder := (num mod den)%N in
            if (remainder =? 0)%N then
              let (coeff', exp') :=
                strip_zeros (Z.to_nat (e1 - e2 - exp)) coeff exp in
              _fix (Finite sign coeff' exp')
            else
              _fix (Finite sign
                     (if (coeff mod 5 =? 0)%N then coeff + 1 else coeff)%N
                     exp)
      | _, _ => Raise InvalidOperation
      end
  end.

(** [adjusted()]: the exponent of the leading digit. *)
Definition adjusted (c : N) (e : Z) : Z := e + ndigits c - 1.

Definition flip (s : bool) (c : comparison) : comparison :=
  if s then CompOpp c else c.

(** [_cmp], on operands that are not NaN. *)
Definition _cmp (a b : Decimal) : comparison :=
  match a, b with
  | Finite s1 c1 e1, Finite s2 c2 e2 =>
      if (c1 =? 0)%N then
        if (c2 =? 0)%N then Eq else flip s2 Lt
      else if (c2 =? 0)%N then flip s1 Gt
      else if negb s2 && s1 then Lt
      else if negb s1 && s2 then Gt
      else
        let a1 := adjusted c1 e1 in
        let a2 := adjusted c2 e2 in
        if a1 =? a2 then
          flip s1 (N.compare (c1 * pow10 (e1 - e2)) (c2 * pow10 (e2 - e1)))
        else if a2 <? a1 then flip s1 Gt
        else flip s1 Lt
  | Inf s1, Inf s2 =>
      if Bool.eqb s1 s2 then Eq else if s1 then Lt else Gt
  | Inf s1, _ => if s1 then Lt else Gt
  | _, Inf s2 => if s2 then Gt else Lt
  | _, _ => Eq
  end.

(** [_compare_check_nans] followed by [_cmp]: ordering comparisons signal
    on any NaN. *)
Definition compare_signal (a b : Decimal) : outcome comparison :=
  if is_nan a || is_nan b then Raise InvalidOperation
  else Return (_cmp a b).

(** [__lt__] *)
Definition lt (a b : Decimal) : outcome bool :=
  (c <- compare_signal a b ;;
   Return (match c with Lt => true | _ => false end))%py.

(** [__le__] *)
Definition le (a b : Decimal) : outcome bool :=
  (c <- compare_signal a b ;;
   Return (match c with Gt => false | _ => true end))%py.

End Dec.

(** ** Construction from text and conversion to text *)
Module DecStr.
Import PyStr Dec.

Definition take_sign (s : str) : bool * str :=
  match s with
  | "-"%char :: r => (true, r)
  | "+"%char :: r => (false, r)
  | _ => (false, s)
  end.

(** The exponent part [[-+]?\d+], which must reach the end of the text. *)
Definition parse_exp (s : str) : option Z :=
  let (neg, r) := take_sign s in
  let (d, r') := span_digits r in
  match d, r' with
  | _ :: _, [] => Some (signed neg (int_of_digits d))
  | _, _ => None
  end.

(** A finite numeral: digits with an optional fractional part (at least one
    digit in all) and an optional exponent. *)
Definition parse_finite (sign : bool) (s : str) : option Decimal :=
  let (ip, r1) := span_digits s in
  let (fp, r2) :=
    match r1 with
    | "."%char :: r => span_digits r
    | _ => ([], r1)
    end in
  match ip ++ fp with
  | [] => None
  | _ :: _ =>
      let c := int_of_digits (ip ++ fp) in
      let n := Z.of_nat (List.length fp) in
      match r2 with
      | [] => Some (Finite sign c (- n))
      | x :: r3 =>
          if Ascii.eqb (lower x) "e"%char then
            match parse_exp r3 with
            | Some e => Some (Finite sign c (e - n))
            | None => None
            end
          else None
      end
  end.

(** [Inf], [Infinity], [NaN<digits>] and [sNaN<digits>], in any case. *)
Definition parse_special (sign : bool) (s : str) : option Decimal :=
  let l := map lower s in
  if str_eqb l (lit "inf") || str_eqb l (lit "infinity") then Some (Inf sign)
  else
    match l with
    | "n"%char :: "a"%char :: "n"%char :: d =>
        if forallb is_digit d then Some (NaN false sign (int_of_digits d))
        else None
    | "s"%char :: "n"%char :: "a"%char :: "n"%char :: d =>
        if forallb is_digit d then Some (NaN true sign (int_of_digits d))
        else None
    | _ => None
    end.

(** [Decimal(value)] for a [str]: surrounding whitespace and underscores are
    dropped, the rest must be a numeral; the conversion is exact.  A text
    that is no numeral raises [InvalidOperation]. *)
Definition of_string (s : str) : outcome Decimal :=
  let t := remove_char underscore (strip s) in
  let (sign, r) := take_sign t in
  match parse_finite sign r with
  | Some d => Return d
  | None =>
      match parse_special sign r with
      | Some d => Return d
      | None => Raise InvalidOperation
      end
  end.

Definition zeros (k : Z) : str := repeat "0"%char (Z.to_nat k).

Definition sign_str (s : bool) : str := if s then lit "-" else [].

(** [__str__]: the scientific string of a value. *)
Definition to_string (d : Decimal) : str :=
  match d with
  | Inf s => sign_str s ++ lit "Infinity"
  | NaN sg s p =>
      sign_str s ++ (if sg then lit "sNaN" else lit "NaN")
      ++ (if (p =? 0)%N then [] else str_of_N p)
  | Finite s c e =>
      let ds := str_of_N c in
      let len := Z.of_nat (List.length ds) in
      let leftdigits := e + len in
      let dotplace :=
        if (e <=? 0) && (-6 <? leftdigits) then leftdigits else 1 in
      let intpart :=
        if dotplace <=? 0 then lit "0"
        else if len <=? dotplace then ds ++ zeros (dotplace - len)
        else firstn (Z.to_nat dotplace) ds in
      let fracpart :=
        if dotplace <=? 0 then "."%char :: zeros (- dotplace) ++ ds
        else if len <=? dotplace then []
        else "."%char :: skipn (Z.to_nat dotplace) ds in
      let exp :=
        if leftdigits =? dotplace then []
        else "E"%char :: str_of_Z_signed (leftdigits - dotplace) in
      sign_str s ++ intpart ++ fracpart ++ exp
  end.

End DecStr.

Import PyStr Dec DecStr.

(** ** Logging and console output *)

Inductive level : Type := INFO | ERROR.

(** One constructor per message of the script; the f-string arguments are
    kept as fields. *)
Inductive message : Type :=
| RequestFailed
| PriceElementMissing
| ParseFloatFailed (value : str) (e : exn)
| TargetElementMissing
| ParsePriceFailed (price_str : str) (e : exn)
| NotWorthBuying
| MissingData
| JSONReadFailed (e : exn)
| NoTickers
| ProcessingCount (n : nat)
| PriceNotRetrieved (ticker : str)
| PriceNotNumber (ticker : str)
| TickerFailed (ticker : str) (e : exn)
| Unexpected (e : exn).

Definition log_entry : Type := level * message.

(** A call that may log: its outcome and the entries it wrote, oldest first. *)
Definition logged (A : Type) : Type := outcome A * list log_entry.

(** What the script prints. *)
Inductive output : Type :=
| ClearScreen
| Banner
| Processing (ticker : str)
| ResultLine (ticker : str) (price value mos : Decimal) (recommendation : str)
| SummaryHeader
| SummaryTicker (ticker : str)
| NoneFound.

(** [except ValueError]: the class and its subclasses. *)
Definition is_ValueError (e : exn) : bool :=
  match e with ValueError | JSONDecodeError => true | _ => false end.

(** [except (ValueError, InvalidOperation)] *)
Definition caught_by_parser (e : exn) : bool :=
  is_ValueError e || match e with InvalidOperation => true | _ => false end.

(** ** The functions of [Graham.py] *)

Definition one_hundred : Decimal := of_Z 100.
Definition seven : Decimal := of_Z 7.
Definition zero : Decimal := of_Z 0.
(** [Decimal('4.4')] and [Decimal('0.8')] *)
Definition four_point_four : Decimal := Finite false 44 (-1).
Definition point_eight : Decimal := Finite false 8 (-1).

(** [parse_float(value)] *)
Definition parse_float (value : str) : logged (option Decimal) :=
  match (d <- of_string (strip_percent (remove_char comma value)) ;;
         div d one_hundred)%py with
  | Return v => (Return (Some v), [])
  | Raise e =>
      if caught_by_parser e
      then (Return None, [(ERROR, ParseFloatFailed value e)])
      else (Raise e, [])
  end.

(** The argument of [parse_stock_price]: text from a page, or the [Decimal]
    the orchestrator passes back in. *)
Inductive price_arg : Type :=
| PStr (s : str)
| PDec (d : Decimal).

(** [parse_stock_price(price_str)] *)
Definition parse_stock_price (price_str : price_arg) : logged (option Decimal) :=
  let price_str :=
    match price_str with
    | PDec d => to_string d
    | PStr s => s
    end in
  match of_string (strip (remove_char comma price_str)) with
  | Return v => (Return (Some v), [])
  | Raise e =>
      if caught_by_parser e
      then (Return None, [(ERROR, ParsePriceFailed price_str e)])
      else (Raise e, [])
  end.

(** [x <= 0] for an argument that may be [None]. *)
Definition le_zero (x : option Decimal) : outcome bool :=
  match x with
  | None => Raise TypeError
  | Some d => le d zero
  end.

(** [(eps * (seven + (g * one_hundred)) * four_point_four) / y], operands
    evaluated left to right, innermost first. *)
Definition graham_formula (eps g y : Decimal) : outcome Decimal :=
  (a <- mul g one_hundred ;;
   b <- add seven a ;;
   c <- mul eps b ;;
   d <- mul c four_point_four ;;
   div d y)%py.

(** [calculate_intrinsic_value(eps, g, y)] *)
Definition calculate_intrinsic_value (eps g y : option Decimal)
  : logged (option Decimal) :=
  match (b <- le_zero eps ;; if b then Return true else le_zero g)%py with
  | Raise e => (Raise e, [])
  | Return true => (Return None, [(INFO, NotWorthBuying)])
  | Return false =>
      match eps, g, y with
      | Some eps, Some g, Some y =>
          ((v <- graham_formula eps g y ;; Return (Some v))%py, [])
      | _, _, _ => (Return None, [(ERROR, MissingData)])
      end
  end.

(** The derived figures of one ticker (lines 169-171 of [main]). *)
Record ValuationResult : Type := {
  intrinsic_value : Decimal;
  margin_of_safety_value : Decimal;
  is_worth_buying : bool;
  recommendation : str
}.

Definition recommend (is_worth_buying : bool) : str :=
  if is_worth_buying then lit "Buy" else lit "Don't Buy".

Definition evaluate (stock_price intrinsic_value : Decimal)
  : outcome ValuationResult :=
  (margin_of_safety_value <- mul intrinsic_value point_eight ;;
   is_worth_buying <- lt stock_price margin_of_safety_value ;;
   Return {| intrinsic_value := intrinsic_value;
             margin_of_safety_value := margin_of_safety_value;
             is_worth_buying := is_worth_buying;
             recommendation := recommend is_worth_buying |})%py.

(** ** The outside world

    The network and the ticker file are the script's inputs.  [W] is the
    state of the network (a page may change between two requests), [Page]
    the content of a response. *)
Inductive json_doc : Type :=
| JNull                      (* [null]: [json.load] returns [None] *)
| JItems (items : list str)  (* a value that can be iterated and has a length *)
| JScalar.                   (* a number or a boolean *)

Record Env (W Page : Type) : Type := {
  (** [requests.get] followed by [raise_for_status]; [None] stands for a
      raised [RequestException]. *)
  http_get : str -> W -> option Page * W;
  (** text of the first element matching a selector, if there is one *)
  select_one : Page -> str -> option str;
  (** content of a file that exists *)
  file_content : str -> option str;
  (** the JSON value of a text that is not blank, if it is a JSON text *)
  json_parse : str -> option json_doc
}.

Record state (W : Type) : Type := {
  world : W;
  log : list log_entry;
  out : list output
}.

(** Stateful calls that may raise: the state survives an exception. *)
Definition M (W A : Type) : Type := state W -> outcome A * state W.

Definition ret {W A : Type} (a : A) : M W A := fun st => (Return a, st).

Definition mbind {W A B : Type} (m : M W A) (k : A -> M W B) : M W B :=
  fun st =>
    match m st with
    | (Return a, st') => k a st'
    | (Raise e, st') => (Raise e, st')
    end.

Notation "'do' x <- m ; k" := (mbind m (fun x => k))
  (at level 10, x name, m at level 100, k at level 200) : py_scope.

Definition logging {W : Type} (l : level) (m : message) : M W unit :=
  fun st => (Return tt,
             {| world := world st; log := log st ++ [(l, m)]; out := out st |}).

Definition print {W : Type} (o : output) : M W unit :=
  fun st => (Return tt,
             {| world := world st; log := log st; out := out st ++ [o] |}).

(** Run a call that only logs. *)
Definition lift_logged {W A : Type} (c : logged A) : M W A :=
  fun st => (fst c,
             {| world := world st; log := log st ++ snd c; out := out st |}).

Definition lift_outcome {W A : Type} (c : outcome A) : M W A :=
  fun st => (c, st).

(** [try: body  except Exception as e: handler(e)] *)
Definition try_except {W A : Type} (body : M W A) (handler : exn -> M W A)
  : M W A :=
  fun st =>
    match body st with
    | (Return a, st') => (Return a, st')
    | (Raise e, st') => handler e st'
    end.

Section Script.
Variables W Page : Type.
Variable env : Env W Page.

(** [safe_request(url)] *)
Definition safe_request (url : str) : M W (option Page) :=
  fun st =>
    match http_get env url (world st) with
    | (Some response, w) =>
        (Return (Some response),
         {| world := w; log := log st; out := out st |})
    | (None, w) =>
        (Return None,
         {| world := w; log := log st ++ [(ERROR, RequestFailed)];
            out := out st |})
    end.

(** [get_stock_price(url, selector)] *)
Definition get_stock_price (url selector : str) : M W (option Decimal) :=
  (do response <- safe_request url;
   match response with
   | Some page =>
       match select_one env page selector with
       | Some (c :: text) => lift_logged (parse_stock_price (PStr (c :: text)))
       | _ => do _ <- logging ERROR PriceElementMissing; ret None
       end
   | None => ret None
   end)%py.

(** [get_financial_data(url, selector)] *)
Definition get_financial_data (url selector : str) : M W (option Decimal) :=
  (do response <- safe_request url;
   match response with
   | Some page =>
       match select_one env page selector with
       | Some text => lift_logged (parse_float text)
       | None => do _ <- logging ERROR TargetElementMissing; ret None
       end
   | None => ret None
   end)%py.

(** JSON whitespace *)
Definition is_json_space (c : ascii) : bool :=
  let n := N_of_ascii c in ((n =? 32) || (n =? 9) || (n =? 10) || (n =? 13))%N.

(** [json.load]: a blank text is no JSON document. *)
Definition json_load (text : str) : outcome json_doc :=
  if forallb is_json_space text then Raise JSONDecodeError
  else
    match json_parse env text with
    | Some doc => Return doc
    | None => Raise JSONDecodeError
    end.

(** [read_tickers_from_json(file_path)]; [None] is Python's [None], which is
    also what the JSON value [null] loads as. *)
Definition read_tickers_from_json (file_path : str) : logged (option json_doc) :=
  let loaded :=
    match file_content env file_path with
    | None => Raise FileNotFoundError
    | Some text => json_load text
    end in
  match loaded with
  | Return JNull => (Return None, [])
  | Return doc => (Return (Some doc), [])
  | Raise e =>
      match e with
      | FileNotFoundError | JSONDecodeError =>
          (Return None, [(ERROR, JSONReadFailed e)])
      | _ => (Raise e, [])
      end
  end.

Definition quote_url (ticker : str) : str :=
  lit "https://finance.yahoo.com/quote/" ++ ticker.

Definition analysis_url (ticker : str) : str :=
  lit "https://finance.yahoo.com/quote/" ++ ticker ++ lit "/analysis".

Definition bond_url : str :=
  lit "https://ycharts.com/indicators/moodys_seasoned_aaa_corporate_bond_yield".

Definition stock_price_selector : str :=
  lit "#quote-header-info > div.My\(6px\).Pos\(r\).smartphone_Mt\(6px\).W\(100\%\) > div.D\(ib\).Va\(m\).Maw\(65\%\).Ov\(h\) > div > fin-streamer.Fw\(b\).Fz\(36px\).Mb\(-4px\).D\(ib\)".

Definition eps_selector : str :=
  lit "#quote-summary > div.D\(ib\).W\(1\/2\).Bxz\(bb\).Pstart\(12px\).Va\(t\).ie-7_D\(i\).ie-7_Pos\(a\).smartphone_D\(b\).smartphone_W\(100\%\).smartphone_Pstart\(0px\).smartphone_BdB.smartphone_Bdc\(\$seperatorColor\) > table > tbody > tr:nth-child(4) > td.Ta\(end\).Fw\(600\).Lh\(14px\)".

Definition growth_selector : str :=
  lit "#Col1-0-AnalystLeafPage-Proxy > section > table:nth-child(7) > tbody > tr:nth-child(5) > td:nth-child(2)".

Definition bond_selector : str :=
  lit "body > main > div > div:nth-child(5) > div > div > div > div > div.col-md-8 > div.hidden-md > div:nth-child(3) > div.panel-content > div > div:nth-child(1) > table > tbody > tr:nth-child(1) > td:nth-child(2)".

(** The observations gathered for one ticker: the values of the loop's
    variables [stock_price], [eps], [g] and [y] when the iteration ends
    ([None] where a stage returned nothing or was not reached). *)
Record Quote : Type := {
  q_price : option Decimal;
  q_eps : option Decimal;
  q_growth : option Decimal;
  q_yield : option Decimal
}.

Definition quote (p e g y : option Decimal) : Quote :=
  {| q_price := p; q_eps := e; q_growth := g; q_yield := y |}.

(** The body of the [for] loop, inside its [try]; a [continue] is a return
    without a result. *)
Definition ticker_body (ticker : str) : M W (Quote * option ValuationResult) :=
  (do _ <- print (Processing ticker);
   do stock_price <- get_stock_price (quote_url ticker) stock_price_selector;
   match stock_price with
   | None =>
       do _ <- logging ERROR (PriceNotRetrieved ticker);
       ret (quote None None None None, None)
   | Some p0 =>
   do stock_price <- lift_logged (parse_stock_price (PDec p0));
   match stock_price with
   | None =>
       do _ <- logging ERROR (PriceNotNumber ticker);
       ret (quote None None None None, None)
   | Some stock_price =>
   do eps <- get_financial_data (quote_url ticker) eps_selector;
   match eps with
   | None => ret (quote (Some stock_price) None None None, None)
   | Some eps =>
   do g <- get_financial_data (analysis_url ticker) growth_selector;
   match g with
   | None => ret (quote (Some stock_price) (Some eps) None None, None)
   | Some g =>
   do y <- get_financial_data bond_url bond_selector;
   match y with
   | None => ret (quote (Some stock_price) (Some eps) (Some g) None, None)
   | Some y =>
   let q := quote (Some stock_price) (Some eps) (Some g) (Some y) in
   do value <- lift_logged
                 (calculate_intrinsic_value (Some eps) (Some g) (Some y));
   match value with
   | None => ret (q, None)
   | Some value =>
       do r <- lift_outcome (evaluate stock_price value);
       do _ <- print (ResultLine ticker stock_price value
                        (margin_of_safety_value r) (recommendation r));
       ret (q, Some r)
   end end end end end end)%py.

(** One iteration: the body under [except Exception], which logs and goes
    on.  The result is what the iteration produced for its ticker. *)
Definition process_ticker (ticker : str) (st : state W)
  : option (Quote * option ValuationResult) * state W :=
  match ticker_body ticker st with
  | (Return r, st') => (Some r, st')
  | (Raise e, st') =>
      (None,
       {| world := world st'; log := log st' ++ [(ERROR, TickerFailed ticker e)];
          out := out st' |})
  end.

Definition buys (r : option (Quote * option ValuationResult)) : bool :=
  match r with
  | Some (_, Some v) => is_worth_buying v
  | _ => false
  end.

(** The [for] loop: [worth_buying] grows by the tickers flagged, [results]
    records what each iteration produced. *)
Fixpoint ticker_loop (tickers : list str) (worth_buying : list str)
  (st : state W)
  : list (str * option (Quote * option ValuationResult)) * list str * state W :=
  match tickers with
  | [] => ([], worth_buying, st)
  | ticker :: rest =>
      let (r, st') := process_ticker ticker st in
      let worth_buying' :=
        if buys r then worth_buying ++ [ticker] else worth_buying in
      let '(results, wb, st'') := ticker_loop rest worth_buying' st' in
      ((ticker, r) :: results, wb, st'')
  end.

(** The final report. *)
Definition summary (worth_buying : list str) : list output :=
  match worth_buying with
  | [] => [NoneFound]
  | _ :: _ => SummaryHeader :: map SummaryTicker worth_buying
  end.

Definition print_all {W' : Type} (os : list output) : M W' unit :=
  fun st => (Return tt,
             {| world := world st; log := log st; out := out st ++ os |}).

(** [len(tickers)] raises on a value without a length; otherwise the loop
    runs over the items. *)
Definition sized (doc : json_doc) : outcome (list str) :=
  match doc with
  | JItems items => Return items
  | _ => Raise TypeError
  end.

(** [main()] *)
Definition main : M W unit :=
  try_except
    (do _ <- print ClearScreen;
     do _ <- print Banner;
     do tickers <- lift_logged (read_tickers_from_json (lit "tickers.json"));
     match tickers with
     | None => do _ <- logging ERROR NoTickers; ret tt
     | Some doc =>
         do items <- lift_outcome (sized doc);
         do _ <- logging INFO (ProcessingCount (List.length items));
         fun st =>
           let '(_, worth_buying, st') := ticker_loop items [] st in
           print_all (summary worth_buying) st'
     end)%py
    (fun e => logging ERROR (Unexpected e)).

End Script.

(** ** Notions used in the statements *)

(** A finite value the context holds without rounding: at most [prec]
    digits, exponent not below [Etiny], adjusted exponent not above [Emax]. *)
Definition fits (d : Decimal) : Prop :=
  match d with
  | Finite _ c e => ndigits c <= prec /\ Etiny <= e /\ adjusted c e <= Emax
  | _ => False
  end.

(** A rational number that is the value of such a decimal. *)
Definition representable (q : Q) : Prop := exists d, fits d /\ value d == q.

(** Digit strings. *)
Definition all_digits (s : str) : Prop := forallb is_digit s = true.

(** The factors of [value]: a power of ten, a coefficient and a sign. *)
Definition q10 (e : Z) : Q := Qpower (10 # 1) e.
Definition qN (c : N) : Q := inject_Z (Z.of_N c).
Definition qsign (s : bool) : Q := if s then (-1)%Q else 1%Q.

(** The magnitude of a finite value. *)
Definition mag (c : N) (e : Z) : Q := (qN c * q10 e)%Q.

(** ** Sample worlds, for evaluating the script *)

(** No network and no ticker file. *)
Definition offline_env : Env unit unit :=
  {| http_get := fun _ w => (None, w);
     select_one := fun _ _ => None;
     file_content := fun _ => None;
     json_parse := fun _ => None |}.

(** Every request succeeds; the pages show a price of 20, an EPS text of
    200, a growth of 10% and a yield text of 440; the ticker file lists one
    ticker. *)
Definition sample_env : Env unit str :=
  {| http_get := fun url w => (Some url, w);
     select_one := fun _ selector =>
       if str_eqb selector stock_price_selector then Some (lit "20")
       else if str_eqb selector eps_selector then Some (lit "200")
       else if str_eqb selector growth_selector then Some (lit "10%")
       else if str_eqb selector bond_selector then Some (lit "440")
       else None;
     file_content := fun _ => Some (lit "[ticker]");
     json_parse := fun _ => Some (JItems [lit "AAPL"]) |}.

Definition start {W : Type} (w : W) : state W :=
  {| world := w; log := []; out := [] |}.

(** The characters the pre-processing of the two parsers leaves alone. *)
Definition plain (c : ascii) : bool :=
  negb (is_space c) && negb (Ascii.eqb c comma)
  && negb (Ascii.eqb c underscore) && negb (Ascii.eqb c percent).

(** ** Numerals

    The text of a finite numeral: integer digits, an optional point with
    fractional digits, an optional exponent. *)
Definition dot_part (fp : option str) : str :=
  match fp with None => [] | Some f => "."%char :: f end.

Definition exp_part (x : option Z) : str :=
  match x with None => [] | Some z => "E"%char :: str_of_Z_signed z end.

Definition numeral_body (ip : str) (fp : option str) (x : option Z) : str :=
  ip ++ dot_part fp ++ exp_part x.

Definition frac_digits (fp : option str) : str :=
  match fp with None => [] | Some f => f end.

Definition exp_value (x : option Z) : Z :=
  match x with None => 0 | Some z => z end.

(** A plain decimal numeral as it is written: an optional sign ([Some true]
    for a minus), integer digits, an optional point with fractional digits. *)
Definition sign_text (s : option bool) : str :=
  match s with
  | None => []
  | Some true => lit "-"
  | Some false => lit "+"
  end.

Definition is_negative (s : option bool) : bool :=
  match s with Some true => true | _ => false end.

Definition numeral_text (s : option bool) (ip : str) (fp : option str) : str :=
  sign_text s ++ numeral_body ip fp None.

Definition valid_numeral (ip : str) (fp : option str) : Prop :=
  all_digits ip /\ all_digits (frac_digits fp) /\ ip ++ frac_digits fp <> [].

(** The number a numeral denotes, by positional notation: the integer digits
    from the left, the fractional digits from the right. *)
Definition digit_q (c : ascii) : Q := qN (digit_val c).

Definition int_value (ds : str) : Q :=
  fold_left (fun a c => (a * 10 + digit_q c)%Q) ds 0%Q.

Definition frac_value (ds : str) : Q :=
  fold_right (fun c a => ((digit_q c + a) / 10)%Q) 0%Q ds.

Definition numeral_value (s : option bool) (ip : str) (fp : option str) : Q :=
  (qsign (is_negative s) * (int_value ip + frac_value (frac_digits fp)))%Q.

(** ** The ratio parser as the specification words it

    "strips thousands-separator commas and a trailing percent sign, parses
    as exact decimal, then divides by 100": one percent sign, at the end. *)
Definition strip_trailing_percent (s : str) : str :=
  match rev s with
  | c :: r => if Ascii.eqb c percent then rev r else s
  | [] => s
  end.

Definition parse_ratio_spec (text : str) : option Decimal :=
  match (d <- of_string (strip_trailing_percent (remove_char comma text)) ;;
         div d one_hundred)%py with
  | Return v => Some v
  | Raise _ => None
  end.

(** ** Notions for the orchestrator's report *)

(** The tickers whose iteration ended with a result flagged worth buying. *)
Definition flagged
  (results : list (str * option (Quote * option ValuationResult))) : list str :=
  map fst (filter (fun tr => buys (snd tr)) results).

(** The state [main] hands to its loop: banner printed, count logged. *)
Definition loop_entry {W : Type} (st : state W) (n : nat) : state W :=
  {| world := world st;
     log := log st ++ [(INFO, ProcessingCount n)];
     out := out st ++ [ClearScreen; Banner] |}.

(** [st'] continues [st]: log and output have only grown. *)
Definition extends {W : Type} (st st' : state W) : Prop :=
  (exists l, log st' = log st ++ l) /\ (exists o, out st' = out st ++ o).

(** A world that also records the URLs requested, oldest first. *)
Definition recording {W Page : Type} (env : Env W Page)
  : Env (W * list str) Page :=
  {| http_get := fun url wt =>
       let (r, w') := http_get env url (fst wt) in
       (r, (w', snd wt ++ [url]));
     select_one := select_one env;
     file_content := file_content env;
     json_parse := json_parse env |}.

(** The requests of one iteration, in the order the loop body makes them. *)
Definition request_plan (ticker : str) : list str :=
  [quote_url ticker; quote_url ticker; analysis_url ticker; bond_url].


(** A call under which the log and the output only grow. *)
Definition grows {W A : Type} (m : M W A) : Prop :=
  forall st, extends st (snd (m st)).

(** What an iteration leaves in the log when its first request fails. *)
Definition offline_log (ticker : str) : list log_entry :=
  [(ERROR, RequestFailed); (ERROR, PriceNotRetrieved ticker)].



(** The result of an iteration that got no price. *)
Definition no_quote : option (Quote * option ValuationResult) :=
  Some (quote None None None None, None).

(** Network down; the ticker file lists two tickers. *)
Definition down_env : Env unit unit :=
  {| http_get := fun _ w => (None, w);
     select_one := fun _ _ => None;
     file_content := fun _ => Some (lit "[tickers]");
     json_parse := fun _ => Some (JItems [lit "AAPL"; lit "MSFT"]) |}.

(** ** Screen layout *)

Definition esc : ascii := ascii_of_nat 27.

(** The ANSI colour codes of the script. *)
Definition GREEN : str := esc :: lit "[92m".
Definition RED : str := esc :: lit "[91m".
Definition YELLOW : str := esc :: lit "[93m".
Definition ENDC : str := esc :: lit "[0m".

Definition spaces (n : Z) : str := repeat " "%char (Z.to_nat n).

(** [text.center(width)]: a text at least as wide as [width] is returned as
    it is; otherwise the padding [marg] is split in two, the left part
    being [marg / 2 + (marg & width & 1)]. *)
Definition center (text : str) (width : Z) : str :=
  let n := Z.of_nat (List.length text) in
  if width <=? n then text
  else
    let marg := width - n in
    let left := marg / 2 + Z.land (Z.land marg width) 1 in
    spaces left ++ text ++ spaces (marg - left).

(** [center_text(text, color)], given the width of the terminal. *)
Definition center_text (terminal_width : Z) (text color : str) : str :=
  color ++ center text terminal_width ++ ENDC.

(** ** Notions for the log of a run *)

(** The two error messages whose branches a run of [main] cannot reach. *)
Definition unreachable_message (m : message) : bool :=
  match m with
  | PriceNotNumber _ | MissingData => true
  | _ => false
  end.

Definition reachable_entry (entry : log_entry) : bool :=
  negb (unreachable_message (snd entry)).

(** A call that only appends to the log, and only entries that pass [P]. *)
Definition logs_within {W A : Type} (P : log_entry -> bool) (m : M W A)
  : Prop :=
  forall st, exists l, log (snd (m st)) = log st ++ l /\ forallb P l = true.


(** * Properties *)

Unset Implicit Arguments.

Module DigitFacts.
Local Open Scope N_scope.

Lemma digit_char_spec n :
  n < 10 -> digit_val (digit_char n) = n /\ is_digit (digit_char n) = true.
Proof.
  intros H.
  assert (E : In n [0;1;2;3;4;5;6;7;8;9]).
  { destruct n as [|p]; [now left|].
    do 9 (destruct p as [p|p|]; try lia; simpl; auto 20). }
  simpl in E.
  repeat (destruct E as [<-|E]; [split; reflexivity|]). contradiction.
Qed.

Lemma all_digits_app a b : all_digits (a ++ b) <-> all_digits a /\ all_digits b.
Proof. unfold all_digits. rewrite forallb_app, andb_true_iff. tauto. Qed.

Lemma fold_digits_acc l a :
  fold_left (fun a c => 10 * a + digit_val c) l a
  = a * 10 ^ N.of_nat (List.length l) + int_of_digits l.
Proof.
  unfold int_of_digits. revert a.
  induction l as [|c l IH]; intros a.
  - simpl. lia.
  - cbn [fold_left List.length]. rewrite IH, (IH (10 * 0 + digit_val c)).
    rewrite Nat2N.inj_succ, N.pow_succ_r'. lia.
Qed.

Lemma int_of_digits_app a b :
  int_of_digits (a ++ b)
  = int_of_digits a * 10 ^ N.of_nat (List.length b) + int_of_digits b.
Proof.
  unfold int_of_digits at 1. rewrite fold_left_app.
  fold (int_of_digits a). apply fold_digits_acc.
Qed.

Lemma int_of_digits_cons c l :
  int_of_digits (c :: l)
  = digit_val c * 10 ^ N.of_nat (List.length l) + int_of_digits l.
Proof.
  change (c :: l) with ([c] ++ l). rewrite int_of_digits_app.
  unfold int_of_digits at 1. simpl fold_left. lia.
Qed.

Lemma int_of_digits_zeros k l :
  int_of_digits (repeat "0"%char k ++ l) = int_of_digits l.
Proof.
  induction k as [|k IH]; [reflexivity|].
  simpl repeat. rewrite <- app_comm_cons, int_of_digits_cons, IH.
  change (digit_val "0") with 0. lia.
Qed.

(** What [digits_fuel] produces, given enough fuel. *)
Lemma digits_fuel_spec fuel : forall n acc,
  (0 < fuel)%nat ->
  n < 2 ^ N.of_nat fuel ->
  exists ds,
    digits_fuel fuel n acc = ds ++ acc /\
    all_digits ds /\
    int_of_digits ds = n /\
    (0 < List.length ds)%nat /\
    (n = 0 -> ds = ["0"%char]) /\
    (0 < n -> 10 ^ (N.of_nat (List.length ds) - 1) <= n
              /\ n < 10 ^ N.of_nat (List.length ds)).
Proof.
  induction fuel as [|fuel IH]; intros n acc Hf Hn.
  - lia.
  - cbn [digits_fuel]. destruct (N.ltb_spec n 10) as [Hlt|Hge].
    + exists [digit_char (n mod 10)].
      rewrite N.mod_small by assumption.
      destruct (digit_char_spec _ Hlt) as [Hv Hd].
      repeat split.
      * unfold all_digits. simpl. now rewrite Hd.
      * unfold int_of_digits. simpl. rewrite Hv. lia.
      * simpl. lia.
      * intros ->. reflexivity.
      * simpl. lia.
      * simpl. lia.
    + assert (Hdiv : n / 10 < 2 ^ N.of_nat fuel).
      { rewrite Nat2N.inj_succ, N.pow_succ_r' in Hn.
        apply N.Div0.div_lt_upper_bound. lia. }
      assert (Hf' : (0 < fuel)%nat).
      { destruct fuel; [|lia]. simpl in Hdiv.
        assert (0 < n / 10) by (apply N.div_str_pos; lia). lia. }
      destruct (IH (n / 10) (digit_char (n mod 10) :: acc) Hf' Hdiv)
        as (ds & E & Hall & Hval & Hlen & _ & Hb).
      assert (Hm : n mod 10 < 10) by (apply N.mod_lt; lia).
      destruct (digit_char_spec _ Hm) as [Hv Hd].
      exists (ds ++ [digit_char (n mod 10)]).
      repeat split.
      * rewrite E, <- app_assoc. reflexivity.
      * apply all_digits_app. split; [assumption|].
        unfold all_digits. simpl. now rewrite Hd.
      * rewrite int_of_digits_app, Hval. unfold int_of_digits at 1.
        simpl. rewrite Hv. pose proof (N.div_mod n 10). lia.
      * rewrite length_app. simpl. lia.
      * intros ->. lia.
      * assert (Hq : 0 < n / 10).
        { apply N.div_str_pos. lia. }
        destruct (Hb Hq) as [Hlo _].
        rewrite length_app. simpl List.length.
        replace (N.of_nat (List.length ds + 1) - 1)
          with (N.succ (N.of_nat (List.length ds) - 1)) by lia.
        rewrite N.pow_succ_r'. pose proof (N.div_mod n 10). lia.
      * assert (Hq : 0 < n / 10).
        { apply N.div_str_pos. lia. }
        destruct (Hb Hq) as [_ Hhi].
        rewrite length_app. simpl List.length.
        replace (N.of_nat (List.length ds + 1))
          with (N.succ (N.of_nat (List.length ds))) by lia.
        rewrite N.pow_succ_r'. pose proof (N.div_mod n 10). lia.
Qed.

Lemma str_of_N_spec n :
  all_digits (str_of_N n) /\
  int_of_digits (str_of_N n) = n /\
  (0 < List.length (str_of_N n))%nat /\
  (n = 0 -> str_of_N n = ["0"%char]) /\
  (0 < n -> 10 ^ (N.of_nat (List.length (str_of_N n)) - 1) <= n
            /\ n < 10 ^ N.of_nat (List.length (str_of_N n))).
Proof.
  unfold str_of_N.
  assert (Hn : n < 2 ^ N.of_nat (S (N.to_nat (N.log2 n)))).
  { rewrite Nat2N.inj_succ, N2Nat.id.
    destruct (N.eq_dec n 0) as [->|Hz]; [reflexivity|].
    apply N.log2_spec. lia. }
  destruct (digits_fuel_spec _ n [] (Nat.lt_0_succ _) Hn) as (ds & E & H).
  rewrite E, app_nil_r. exact H.
Qed.

End DigitFacts.

Import DigitFacts.
Module Pow10.

Lemma pow10_pos k : (0 < pow10 k)%N.
Proof. unfold pow10. apply N.neq_0_lt_0, N.pow_nonzero. discriminate. Qed.

Lemma pow10_0 : pow10 0 = 1%N.
Proof. reflexivity. Qed.

Lemma pow10_nonpos k : k <= 0 -> pow10 k = 1%N.
Proof. intros H. unfold pow10. destruct k; try lia; reflexivity. Qed.

Lemma pow10_add a b : 0 <= a -> 0 <= b -> pow10 (a + b) = (pow10 a * pow10 b)%N.
Proof.
  intros Ha Hb. unfold pow10. rewrite Z2N.inj_add by assumption.
  apply N.pow_add_r.
Qed.

Lemma pow10_succ a : 0 <= a -> pow10 (a + 1) = (10 * pow10 a)%N.
Proof. intros Ha. rewrite pow10_add by lia. change (pow10 1) with 10%N. lia. Qed.

Lemma pow10_le a b : a <= b -> (pow10 a <= pow10 b)%N.
Proof.
  intros H. unfold pow10. apply N.pow_le_mono_r; [discriminate|].
  destruct a, b; simpl; lia.
Qed.

Lemma pow10_lt a b : 0 <= a -> a < b -> (pow10 a < pow10 b)%N.
Proof.
  intros Ha H. unfold pow10. apply N.pow_lt_mono_r; [reflexivity|].
  apply Z2N.inj_lt; lia.
Qed.

Lemma pow10_lt_inv a b : (pow10 a < pow10 b)%N -> a < b.
Proof.
  intros H. destruct (Z_lt_le_dec a b) as [Hlt|Hge]; [assumption|].
  apply pow10_le in Hge. lia.
Qed.

Lemma pow10_Z k : 0 <= k -> Z.of_N (pow10 k) = 10 ^ k.
Proof.
  intros H. unfold pow10. rewrite N2Z.inj_pow, Z2N.id by assumption. reflexivity.
Qed.

Lemma ndigits_pos c : 1 <= ndigits c.
Proof. unfold ndigits. pose proof (str_of_N_spec c) as (_ & _ & H & _). lia. Qed.

Lemma ndigits_0 : ndigits 0 = 1.
Proof. reflexivity. Qed.

Lemma ndigits_bounds c :
  c <> 0%N -> (pow10 (ndigits c - 1) <= c /\ c < pow10 (ndigits c))%N.
Proof.
  intros Hc. unfold ndigits, pow10.
  pose proof (str_of_N_spec c) as (_ & _ & Hl & _ & Hb).
  destruct Hb as [Hlo Hhi]; [lia|].
  rewrite Z2N.inj_sub by lia. rewrite <- nat_N_Z, N2Z.id.
  change (Z.to_N 1) with 1%N. split; assumption.
Qed.

Lemma ndigits_unique c k :
  1 <= k -> (pow10 (k - 1) <= c)%N -> (c < pow10 k)%N -> ndigits c = k.
Proof.
  intros Hk Hlo Hhi.
  assert (Hc : c <> 0%N) by (pose proof (pow10_pos (k - 1)); lia).
  destruct (ndigits_bounds c Hc) as [Hlo' Hhi'].
  pose proof (ndigits_pos c).
  assert (k - 1 < ndigits c) by (apply pow10_lt_inv; lia).
  assert (ndigits c - 1 < k) by (apply pow10_lt_inv; lia).
  lia.
Qed.

Lemma ndigits_le c k : 1 <= k -> (ndigits c <= k <-> (c < pow10 k)%N).
Proof.
  intros Hk. destruct (N.eq_dec c 0) as [->|Hc].
  - rewrite ndigits_0. pose proof (pow10_pos k). split; intros; lia.
  - destruct (ndigits_bounds c Hc) as [Hlo Hhi]. pose proof (ndigits_pos c) as Hp.
    split; intros H.
    + pose proof (pow10_le (ndigits c) k H). lia.
    + assert (ndigits c - 1 < k) by (apply pow10_lt_inv; lia). lia.
Qed.

Lemma ndigits_mul_pow10 c k :
  c <> 0%N -> 0 <= k -> ndigits (c * pow10 k) = ndigits c + k.
Proof.
  intros Hc Hk. destruct (ndigits_bounds c Hc) as [Hlo Hhi].
  pose proof (ndigits_pos c). pose proof (pow10_pos k).
  apply ndigits_unique; [lia| |].
  - replace (ndigits c + k - 1) with (ndigits c - 1 + k) by lia.
    rewrite pow10_add by lia. nia.
  - rewrite pow10_add by lia. nia.
Qed.

Lemma ndigits_mono a b : (a <= b)%N -> ndigits a <= ndigits b.
Proof.
  intros H. destruct (N.eq_dec a 0) as [->|Ha].
  - rewrite ndigits_0. apply ndigits_pos.
  - pose proof (ndigits_pos b).
    destruct (ndigits_bounds a Ha) as [Hlo _].
    destruct (ndigits_bounds b ltac:(lia)) as [_ Hhi].
    assert (ndigits a - 1 < ndigits b) by (apply pow10_lt_inv; lia). lia.
Qed.

Lemma ndigits_mul a b :
  a <> 0%N -> b <> 0%N ->
  ndigits a + ndigits b - 1 <= ndigits (a * b) <= ndigits a + ndigits b.
Proof.
  intros Ha Hb.
  destruct (ndigits_bounds a Ha) as [Hla Hha].
  destruct (ndigits_bounds b Hb) as [Hlb Hhb].
  pose proof (ndigits_pos a). pose proof (ndigits_pos b).
  pose proof (ndigits_pos (a * b)).
  destruct (ndigits_bounds (a * b) ltac:(lia)) as [Hl Hh].
  split.
  - assert (ndigits a - 1 + (ndigits b - 1) < ndigits (a * b)).
    { apply pow10_lt_inv. rewrite pow10_add by lia. nia. }
    lia.
  - assert (ndigits (a * b) - 1 < ndigits a + ndigits b).
    { apply pow10_lt_inv. rewrite (pow10_add (ndigits a)) by lia. nia. }
    lia.
Qed.

End Pow10.

Import DigitFacts Pow10.
Module ValueFacts.
Local Open Scope Q_scope.

Lemma value_Finite s c e : value (Finite s c e) = (qsign s * qN c * q10 e)%Q.
Proof. reflexivity. Qed.

Lemma q10_add a b : q10 (a + b) == q10 a * q10 b.
Proof. unfold q10. apply Qpower_plus. discriminate. Qed.

Lemma q10_pos e : 0 < q10 e.
Proof. unfold q10. apply Qpower_0_lt. reflexivity. Qed.

Lemma q10_nonzero e : ~ q10 e == 0.
Proof. pose proof (q10_pos e) as H. intros E. rewrite E in H. discriminate. Qed.

Lemma q10_N k : (0 <= k)%Z -> q10 k == qN (pow10 k).
Proof.
  intros H. unfold q10, qN. rewrite pow10_Z by assumption.
  rewrite Zpower_Qpower by assumption. reflexivity.
Qed.

Lemma q10_sub a b : q10 (a - b) == q10 a / q10 b.
Proof.
  assert (E : q10 a == q10 (a - b) * q10 b).
  { rewrite <- q10_add. replace (a - b + b)%Z with a by lia. reflexivity. }
  rewrite E. field. apply q10_nonzero.
Qed.

Lemma qN_mul a b : qN (a * b) == qN a * qN b.
Proof. unfold qN. rewrite N2Z.inj_mul, inject_Z_mult. reflexivity. Qed.

Lemma qN_inj a b : qN a == qN b -> a = b.
Proof. unfold qN. intros H. apply (proj1 (inject_Z_injective _ _)) in H. lia. Qed.

Lemma qN_nonneg a : 0 <= qN a.
Proof. unfold qN. change 0%Q with (inject_Z 0). rewrite <- Zle_Qle. lia. Qed.

Lemma qN_zero a : qN a == 0 -> a = 0%N.
Proof. intros H. apply qN_inj. exact H. Qed.

Lemma qsign_abs s : Qabs (qsign s) == 1.
Proof. destruct s; reflexivity. Qed.

Lemma value_abs s c e : Qabs (value (Finite s c e)) == qN c * q10 e.
Proof.
  rewrite value_Finite, !Qabs_Qmult, qsign_abs.
  rewrite (Qabs_pos (qN c)) by apply qN_nonneg.
  rewrite (Qabs_pos (q10 e)) by (apply Qlt_le_weak, q10_pos).
  ring.
Qed.

(** Two writings of one number: the one with the smaller exponent has the
    other's coefficient padded with zeros. *)
Lemma scaled_eq c e c0 e0 :
  qN c * q10 e == qN c0 * q10 e0 -> (e <= e0)%Z -> c = (c0 * pow10 (e0 - e))%N.
Proof.
  intros H Hle. apply qN_inj. rewrite qN_mul, <- q10_N by lia.
  rewrite q10_sub. 
  assert (E : qN c == qN c0 * q10 e0 / q10 e).
  { rewrite <- H. field. apply q10_nonzero. }
  rewrite E. field. apply q10_nonzero.
Qed.

Lemma value_scale s c e k :
  (0 <= k)%Z -> value (Finite s (c * pow10 k) (e - k)) == value (Finite s c e).
Proof.
  intros Hk. rewrite !value_Finite, qN_mul, <- q10_N, q10_sub by assumption.
  field. apply q10_nonzero.
Qed.

Lemma value_zero s e : value (Finite s 0 e) == 0.
Proof. rewrite value_Finite. unfold qN. simpl inject_Z. ring. Qed.

Lemma value_zero_inv s c e : value (Finite s c e) == 0 -> c = 0%N.
Proof.
  intros H. apply qN_zero.
  assert (A : Qabs (value (Finite s c e)) == 0) by (rewrite H; reflexivity).
  rewrite value_abs in A.
  apply Qmult_integral in A. destruct A as [A|A]; [exact A|].
  now apply q10_nonzero in A.
Qed.

#[export] Instance representable_proper : Proper (Qeq ==> iff) representable.
Proof.
  intros x y E. unfold representable.
  split; intros (d & F & V); exists d; split; try assumption.
  - now rewrite V.
  - now rewrite V, E.
Qed.

Ltac ctx := unfold adjusted, Etop, Etiny, Emin, Emax, prec in *.

Lemma round_exact c k :
  (0 <= k)%Z -> round_half_even (c * pow10 k) k = c.
Proof.
  intros Hk. unfold round_half_even. pose proof (pow10_pos k) as Hp.
  rewrite N.div_mul by lia. rewrite N.Div0.mod_mul.
  destruct (N.ltb_spec (pow10 k) (2 * 0)); [lia|].
  destruct (N.eqb_spec (2 * 0) (pow10 k)); [lia|]. reflexivity.
Qed.

(** A number the context can hold is returned by [_fix] with its value
    unchanged. *)
Lemma fix_exact s c e :
  representable (value (Finite s c e)) ->
  exists d, _fix (Finite s c e) = Return d /\ fits d
            /\ value d == value (Finite s c e).
Proof.
  intros (d0 & F0 & V0).
  destruct d0 as [s0 c0 e0| |]; try contradiction.
  destruct F0 as (Hn0 & Ht0 & Ha0).
  cbn [_fix]. destruct (N.eqb_spec c 0) as [->|Hc].
  - eexists. split; [reflexivity|]. split.
    + cbn [fits]. ctx. rewrite ndigits_0. lia.
    + rewrite !value_zero. reflexivity.
  - assert (Hc0 : c0 <> 0%N).
    { intros ->. rewrite value_zero in V0. symmetry in V0.
      now apply value_zero_inv in V0. }
    assert (A : qN c * q10 e == qN c0 * q10 e0).
    { rewrite <- !value_abs, V0. reflexivity. }
    pose proof (ndigits_pos c) as Hp. pose proof (ndigits_pos c0) as Hp0.
    destruct (Z_le_gt_dec e e0) as [Hle|Hgt].
    + pose proof (scaled_eq _ _ _ _ A Hle) as Ec.
      assert (En : ndigits c = (ndigits c0 + (e0 - e))%Z).
      { rewrite Ec. apply ndigits_mul_pow10; [assumption|lia]. }
      destruct (Z.ltb_spec Etop (ndigits c + e - prec)%Z) as [Ho|Ho];
        [ctx; lia|].
      set (exp_min := Z.max (ndigits c + e - prec)%Z Etiny).
      assert (Hm : (exp_min <= e0)%Z) by (unfold exp_min; ctx; lia).
      destruct (Z.ltb_spec e exp_min) as [Hr|Hr].
      * assert (Eq : c = (c0 * pow10 (e0 - exp_min) * pow10 (exp_min - e))%N).
        { rewrite <- N.mul_assoc, <- pow10_add by lia.
          replace (e0 - exp_min + (exp_min - e))%Z with (e0 - e)%Z by lia.
          exact Ec. }
        assert (Hround : round_half_even c (exp_min - e)
                         = (c0 * pow10 (e0 - exp_min))%N).
        { rewrite Eq. apply round_exact. lia. }
        rewrite Hround.
        assert (Enq : ndigits (c0 * pow10 (e0 - exp_min)) = (ndigits c0 + (e0 - exp_min))%Z).
        { apply ndigits_mul_pow10; [assumption|lia]. }
        destruct (Z.ltb_spec prec (ndigits (c0 * pow10 (e0 - exp_min))))
          as [Hbig|Hbig]; [unfold exp_min in *; ctx; lia|].
        eexists. split; [reflexivity|]. split.
        -- cbn [fits]. unfold adjusted. rewrite Enq.
           unfold exp_min in *. ctx. lia.
        -- rewrite <- (value_scale s _ exp_min (exp_min - e)) by lia.
           rewrite <- Eq.
           replace (exp_min - (exp_min - e))%Z with e by lia. reflexivity.
      * eexists. split; [reflexivity|]. split; [|reflexivity].
        cbn [fits]. unfold exp_min in *. ctx. lia.
    + symmetry in A. pose proof (scaled_eq _ _ _ _ A ltac:(lia)) as Ec.
      assert (En : ndigits c0 = (ndigits c + (e - e0))%Z).
      { rewrite Ec. apply ndigits_mul_pow10; [assumption|lia]. }
      destruct (Z.ltb_spec Etop (ndigits c + e - prec)%Z) as [Ho|Ho];
        [ctx; lia|].
      destruct (Z.ltb_spec e (Z.max (ndigits c + e - prec)%Z Etiny)) as [Hr|Hr];
        [ctx; lia|].
      eexists. split; [reflexivity|]. split; [|reflexivity].
      cbn [fits]. ctx. lia.
Qed.

End ValueFacts.

Import DigitFacts Pow10 ValueFacts.
Module ArithFacts.
Local Open Scope Q_scope.

Lemma qsign_xorb s1 s2 : qsign (xorb s1 s2) == qsign s1 * qsign s2.
Proof. destruct s1, s2; reflexivity. Qed.

Lemma value_mul s1 c1 e1 s2 c2 e2 :
  value (Finite (xorb s1 s2) (c1 * c2) (e1 + e2))
  == value (Finite s1 c1 e1) * value (Finite s2 c2 e2).
Proof. rewrite !value_Finite, qsign_xorb, qN_mul, q10_add. ring. Qed.

Lemma mul_exact a b :
  is_finite a = true -> is_finite b = true ->
  representable (value a * value b) ->
  exists d, mul a b = Return d /\ fits d /\ value d == value a * value b.
Proof.
  destruct a as [s1 c1 e1| |]; try discriminate.
  destruct b as [s2 c2 e2| |]; try discriminate.
  intros _ _ R. cbn [mul _check_nans].
  rewrite <- value_mul in R.
  destruct (fix_exact _ _ _ R) as (d & E & F & V).
  exists d. split; [exact E|]. split; [exact F|].
  rewrite V. apply value_mul.
Qed.

Lemma inject_signed s c : inject_Z (signed s c) == qsign s * qN c.
Proof.
  unfold signed, qN. destruct s; cbn [qsign].
  - rewrite inject_Z_opp. ring.
  - ring.
Qed.

Lemma value_of_Z z s e :
  (z = 0%Z \/ s = (z <? 0)%Z) ->
  value (Finite s (Z.abs_N z) e) == inject_Z z * q10 e.
Proof.
  intros H. rewrite value_Finite.
  assert (E : qsign s * qN (Z.abs_N z) == inject_Z z).
  { unfold qN. rewrite N2Z.inj_abs_N. destruct H as [-> | ->].
    - simpl. ring.
    - destruct (Z.ltb_spec z 0); cbn [qsign].
      + rewrite Z.abs_neq by lia. rewrite inject_Z_opp. ring.
      + rewrite Z.abs_eq by lia. ring. }
  rewrite E. reflexivity.
Qed.

Lemma value_add s1 c1 e1 s2 c2 e2 :
  let e := Z.min e1 e2 in
  let z := (signed s1 (c1 * pow10 (e1 - e)) + signed s2 (c2 * pow10 (e2 - e)))%Z in
  let s := if (z =? 0)%Z then s1 && s2 else (z <? 0)%Z in
  value (Finite s (Z.abs_N z) e)
  == value (Finite s1 c1 e1) + value (Finite s2 c2 e2).
Proof.
  intros e z s. rewrite value_of_Z.
  - unfold z. rewrite inject_Z_plus, !inject_signed.
    rewrite <- (value_scale s1 c1 e1 (e1 - e)) by (unfold e; lia).
    rewrite <- (value_scale s2 c2 e2 (e2 - e)) by (unfold e; lia).
    rewrite !value_Finite.
    replace (e1 - (e1 - e))%Z with e by lia.
    replace (e2 - (e2 - e))%Z with e by lia. ring.
  - unfold s. destruct (Z.eqb_spec z 0); [now left|now right].
Qed.

Lemma add_exact a b :
  is_finite a = true -> is_finite b = true ->
  representable (value a + value b) ->
  exists d, add a b = Return d /\ fits d /\ value d == value a + value b.
Proof.
  destruct a as [s1 c1 e1| |]; try discriminate.
  destruct b as [s2 c2 e2| |]; try discriminate.
  intros _ _ R. cbn [add _check_nans].
  pose proof (value_add s1 c1 e1 s2 c2 e2) as A. cbv zeta in A.
  rewrite <- A in R.
  destruct (fix_exact _ _ _ R) as (d & E & F & V).
  exists d. split; [exact E|]. split; [exact F|].
  rewrite V. exact A.
Qed.

Lemma strip_zeros_spec n : forall c e c' e',
  strip_zeros n c e = (c', e') ->
  (e <= e')%Z /\ c = (c' * pow10 (e' - e))%N.
Proof.
  induction n as [|n IH]; intros c e c' e' H; cbn [strip_zeros] in H.
  - injection H as <- <-. rewrite Z.sub_diag, pow10_0. lia.
  - destruct (N.eqb_spec (c mod 10) 0) as [Hm|Hm].
    + apply IH in H. destruct H as [Hle Hc]. split; [lia|].
      replace (e' - e)%Z with (e' - (e + 1) + 1)%Z by lia.
      rewrite pow10_succ by lia.
      pose proof (N.div_mod c 10 ltac:(lia)). lia.
    + injection H as <- <-. rewrite Z.sub_diag, pow10_0. lia.
Qed.

Lemma value_div s1 c1 e1 s2 c2 e2 :
  c2 <> 0%N ->
  value (Finite s1 c1 e1) / value (Finite s2 c2 e2)
  == qsign (xorb s1 s2) * (qN c1 / qN c2) * q10 (e1 - e2).
Proof.
  intros Hc. rewrite !value_Finite, qsign_xorb, q10_sub.
  assert (~ qN c2 == 0) by (intros E; now apply qN_zero in E).
  pose proof (q10_nonzero e2).
  destruct s1, s2; cbn [qsign]; field; auto.
Qed.

Lemma q10_le a b : (a <= b)%Z -> q10 a <= q10 b.
Proof.
  intros H. replace b with (a + (b - a))%Z by lia.
  rewrite q10_add, (q10_N (b - a)) by lia.
  rewrite <- (Qmult_1_r (q10 a)) at 1.
  apply Qmult_le_l; [apply q10_pos|].
  unfold qN. change 1 with (inject_Z 1). rewrite <- Zle_Qle.
  pose proof (pow10_pos (b - a)). lia.
Qed.

Lemma qN_le a b : (a <= b)%N -> qN a <= qN b.
Proof. intros H. unfold qN. rewrite <- Zle_Qle. lia. Qed.

Lemma qN_lt a b : (a < b)%N -> qN a < qN b.
Proof. intros H. unfold qN. rewrite <- Zlt_Qlt. lia. Qed.

Lemma q10_lt_inv a b : q10 a < q10 b -> (a < b)%Z.
Proof.
  intros H. destruct (Z_lt_le_dec a b) as [Hlt|Hge]; [assumption|].
  apply q10_le in Hge. exfalso. apply (Qlt_irrefl (q10 a)).
  eapply Qlt_le_trans; eassumption.
Qed.

(** [q10 (ndigits c - 1) <= c < q10 (ndigits c)] *)
Lemma qN_bounds c :
  c <> 0%N -> q10 (ndigits c - 1) <= qN c /\ qN c < q10 (ndigits c).
Proof.
  intros Hc. destruct (ndigits_bounds c Hc) as [Hlo Hhi].
  pose proof (ndigits_pos c).
  rewrite !q10_N by lia. split; [now apply qN_le|now apply qN_lt].
Qed.

Lemma qN_pos c : c <> 0%N -> 0 < qN c.
Proof. intros H. change 0 with (qN 0). apply qN_lt. lia. Qed.

End ArithFacts.

Import DigitFacts Pow10 ValueFacts ArithFacts.
Module DivFacts.
Local Open Scope Q_scope.

Lemma abs_signed s x : 0 <= x -> Qabs (qsign s * x) == x.
Proof.
  intros H. rewrite Qabs_Qmult, qsign_abs, Qabs_pos by assumption. ring.
Qed.

Lemma exact_quotient num den q :
  den <> 0%N -> num = (q * den)%N ->
  (num / den = q /\ num mod den = 0)%N.
Proof.
  intros Hd ->. split; [now apply N.div_mul|apply N.Div0.mod_mul].
Qed.

(** The magnitude equation behind an exactly representable quotient. *)
Lemma quotient_magnitude s0 c0 e0 s1 c1 e1 s2 c2 e2 :
  c2 <> 0%N ->
  value (Finite s0 c0 e0) == value (Finite s1 c1 e1) / value (Finite s2 c2 e2) ->
  qN c0 * q10 e0 * qN c2 == qN c1 * q10 (e1 - e2).
Proof.
  intros Hc V.
  assert (P2 : 0 < qN c2) by now apply qN_pos.
  assert (A : Qabs (value (Finite s0 c0 e0))
              == Qabs (value (Finite s1 c1 e1) / value (Finite s2 c2 e2)))
    by (rewrite V; reflexivity).
  rewrite value_abs, value_div in A by assumption.
  rewrite <- Qmult_assoc, abs_signed in A.
  - rewrite A. field. intros E. rewrite E in P2. discriminate.
  - apply Qmult_le_0_compat; [|apply Qlt_le_weak, q10_pos].
    apply Qle_shift_div_l; [assumption|]. rewrite Qmult_0_l. apply qN_nonneg.
Qed.

Lemma div_exact a b :
  is_finite a = true -> is_finite b = true -> is_zero b = false ->
  representable (value a / value b) ->
  exists d, div a b = Return d /\ fits d /\ value d == value a / value b.
Proof.
  destruct a as [s1 c1 e1| |]; try discriminate.
  destruct b as [s2 c2 e2| |]; try discriminate.
  intros _ _ Hz R. cbn [is_zero] in Hz. cbn [div _check_nans]. rewrite Hz.
  apply N.eqb_neq in Hz.
  destruct (N.eqb_spec c1 0) as [->|Hc1].
  - assert (E : value (Finite (xorb s1 s2) 0 (e1 - e2))
                == value (Finite s1 0 e1) / value (Finite s2 c2 e2)).
    { rewrite !value_zero. unfold Qdiv. ring. }
    rewrite <- E in R.
    destruct (fix_exact _ _ _ R) as (d & Ed & F & V).
    exists d. split; [exact Ed|]. split; [exact F|]. now rewrite V.
  - destruct R as (d0 & F0 & V0).
    destruct d0 as [s0 c0 e0| |]; try contradiction.
    destruct F0 as (Hn0 & Ht0 & Ha0).
    pose proof (quotient_magnitude _ _ _ _ _ _ _ _ _ Hz V0) as K.
    set (shift := (ndigits c2 - ndigits c1 + prec + 1)%Z).
    set (exp := (e1 - e2 - shift)%Z).
    (* the coefficient of the quotient has at most [prec] digits, so the
       shifted dividend is a multiple of the divisor *)
    assert (Hc0 : c0 <> 0%N).
    { intros ->. change (qN 0) with 0 in K. rewrite !Qmult_0_l in K.
      symmetry in K. apply Qmult_integral in K. destruct K as [K|K].
      - now apply qN_zero in K.
      - now apply q10_nonzero in K. }
    destruct (qN_bounds c0 Hc0) as [_ Hh0].
    destruct (qN_bounds c1 Hc1) as [Hl1 _].
    destruct (qN_bounds c2 Hz) as [_ Hh2].
    assert (Hk : (1 <= e0 - exp)%Z).
    { assert (L : q10 (ndigits c1 - 1 + (e1 - e2))
                  < q10 (prec + e0 + ndigits c2)).
      { rewrite !q10_add.
        apply Qle_lt_trans with (qN c1 * q10 (e1 - e2)).
        - apply Qmult_le_compat_r; [assumption|apply Qlt_le_weak, q10_pos].
        - rewrite <- K.
          apply Qle_lt_trans with (q10 prec * q10 e0 * qN c2).
          + apply Qmult_le_compat_r; [|apply qN_nonneg].
            apply Qmult_le_compat_r; [|apply Qlt_le_weak, q10_pos].
            apply Qle_trans with (q10 (ndigits c0)).
            * now apply Qlt_le_weak.
            * now apply q10_le.
          + apply Qmult_lt_l; [|assumption].
            apply Qmult_lt_0_compat; apply q10_pos. }
      apply q10_lt_inv in L. unfold exp, shift. lia. }
    set (q := (c0 * pow10 (e0 - exp))%N).
    set (num := if (0 <=? shift)%Z then (c1 * pow10 shift)%N else c1).
    set (den := if (0 <=? shift)%Z then c2 else (c2 * pow10 (- shift))%N).
    assert (Hden : den <> 0%N).
    { unfold den. pose proof (pow10_pos (- shift)).
      destruct (0 <=? shift)%Z; lia. }
    assert (Hnum : num = (q * den)%N).
    { apply qN_inj. unfold num, den, q.
      assert (E1 : qN c1 == qN c0 * qN c2 * q10 (e0 - (e1 - e2))).
      { rewrite q10_sub.
        assert (T : qN c1 == qN c1 * q10 (e1 - e2) / q10 (e1 - e2))
          by (field; apply q10_nonzero).
        rewrite T, <- K. field. apply q10_nonzero. }
      destruct (Z.leb_spec 0 shift) as [Hs|Hs].
      - rewrite !qN_mul, <- !q10_N by lia. rewrite E1.
        replace (e0 - exp)%Z with (e0 - (e1 - e2) + shift)%Z by (unfold exp; lia).
        rewrite q10_add. ring.
      - rewrite !qN_mul, <- !q10_N by lia. rewrite E1.
        replace (e0 - (e1 - e2))%Z with (e0 - exp + - shift)%Z by (unfold exp; lia).
        rewrite q10_add. ring. }
    destruct (exact_quotient num den q Hden Hnum) as [Hq Hr].
    rewrite Hr, Hq. cbn [N.eqb].
    destruct (strip_zeros (Z.to_nat (e1 - e2 - exp)) q exp) as [c' e'] eqn:Es.
    apply strip_zeros_spec in Es. destruct Es as [Hle Ec].
    assert (V : value (Finite (xorb s1 s2) c' e')
                == value (Finite s1 c1 e1) / value (Finite s2 c2 e2)).
    { rewrite <- (value_scale _ c' e' (e' - exp)) by lia.
      rewrite <- Ec. replace (e' - (e' - exp))%Z with exp by lia.
      rewrite value_div by assumption. rewrite value_Finite.
      unfold q. rewrite qN_mul, <- q10_N by lia.
      assert (E2 : qN c1 / qN c2 * q10 (e1 - e2) == qN c0 * q10 e0).
      { assert (N2 : ~ qN c2 == 0) by (intros E; now apply qN_zero in E).
        assert (T : qN c1 / qN c2 * q10 (e1 - e2)
                    == qN c1 * q10 (e1 - e2) / qN c2) by (field; exact N2).
        rewrite T, <- K. field. exact N2. }
      assert (E3 : q10 (e0 - exp) * q10 exp == q10 e0).
      { rewrite <- q10_add. replace (e0 - exp + exp)%Z with e0 by lia.
        reflexivity. }
      transitivity (qsign (xorb s1 s2) * (qN c0 * q10 e0)).
      { rewrite <- E3. ring. }
      rewrite <- E2. ring. }
    assert (R : representable (value (Finite (xorb s1 s2) c' e'))).
    { exists (Finite s0 c0 e0). split; [now repeat split|].
      now rewrite V0, V. }
    destruct (fix_exact _ _ _ R) as (d & Ed & F & Vd).
    exists d. split; [exact Ed|]. split; [exact F|]. now rewrite Vd.
Qed.

End DivFacts.

Import DigitFacts Pow10 ValueFacts ArithFacts.
Module CmpFacts.
Local Open Scope Q_scope.

Lemma Qcompare_scale x y k : 0 < k -> (x * k ?= y * k) = (x ?= y).
Proof.
  intros Hk. destruct (x ?= y) eqn:E.
  - apply Qeq_alt in E. apply Qeq_alt. now rewrite E.
  - apply Qlt_alt in E. apply Qlt_alt. now apply Qmult_lt_r.
  - apply Qgt_alt in E. apply Qgt_alt. now apply Qmult_lt_r.
Qed.

Lemma Qcompare_opp x y : (- x ?= - y) = CompOpp (x ?= y).
Proof.
  destruct (x ?= y) eqn:E; cbn [CompOpp].
  - apply Qeq_alt in E. apply Qeq_alt. now rewrite E.
  - apply Qlt_alt in E. apply Qgt_alt. now apply Qopp_lt_compat.
  - apply Qgt_alt in E. apply Qlt_alt. now apply Qopp_lt_compat.
Qed.

Lemma Qcompare_qN a b : (qN a ?= qN b) = (a ?= b)%N.
Proof.
  unfold Qcompare, qN. cbn [Qnum Qden inject_Z]. rewrite !Z.mul_1_r.
  apply N2Z.inj_compare.
Qed.

Lemma mag_pos c e : c <> 0%N -> 0 < mag c e.
Proof.
  intros H. apply Qmult_lt_0_compat; [now apply qN_pos|apply q10_pos].
Qed.

Lemma value_mag s c e : value (Finite s c e) == qsign s * mag c e.
Proof. rewrite value_Finite. unfold mag. ring. Qed.

Lemma mag_pad c e k : (0 <= k)%Z -> qN (c * pow10 k) * q10 (e - k) == mag c e.
Proof.
  intros H. unfold mag. rewrite qN_mul, <- q10_N, q10_sub by assumption.
  field. apply q10_nonzero.
Qed.

(** Comparing the padded coefficients compares the magnitudes. *)
Lemma mag_pad_to c e e' :
  (e' <= e)%Z -> qN (c * pow10 (e - e')) * q10 e' == mag c e.
Proof.
  intros H. rewrite <- (mag_pad c e (e - e')) by lia.
  replace (e - (e - e'))%Z with e' by lia. reflexivity.
Qed.

Lemma mag_unpadded c e e' :
  (e <= e')%Z -> qN (c * pow10 (e - e')) * q10 e == mag c e.
Proof.
  intros H. rewrite pow10_nonpos by lia. rewrite N.mul_1_r. reflexivity.
Qed.

(** Comparing the padded coefficients compares the magnitudes. *)
Lemma compare_padded c1 e1 c2 e2 :
  ((c1 * pow10 (e1 - e2)) ?= (c2 * pow10 (e2 - e1)))%N
  = (mag c1 e1 ?= mag c2 e2).
Proof.
  rewrite <- Qcompare_qN.
  destruct (Z_le_gt_dec e2 e1) as [H|H].
  - rewrite <- (Qcompare_scale _ _ (q10 e2)) by apply q10_pos.
    rewrite mag_pad_to, mag_unpadded by lia. reflexivity.
  - rewrite <- (Qcompare_scale _ _ (q10 e1)) by apply q10_pos.
    rewrite mag_unpadded, mag_pad_to by lia. reflexivity.
Qed.

(** A larger adjusted exponent means a larger magnitude. *)
Lemma adjusted_lt_mag c1 e1 c2 e2 :
  c1 <> 0%N -> c2 <> 0%N ->
  (adjusted c1 e1 < adjusted c2 e2)%Z -> mag c1 e1 < mag c2 e2.
Proof.
  intros H1 H2 H. unfold adjusted in H.
  destruct (qN_bounds c1 H1) as [_ Hh].
  destruct (qN_bounds c2 H2) as [Hl _].
  apply Qlt_le_trans with (q10 (ndigits c1) * q10 e1).
  - apply Qmult_lt_compat_r; [apply q10_pos|assumption].
  - apply Qle_trans with (q10 (ndigits c2 - 1) * q10 e2).
    + rewrite <- !q10_add. apply q10_le. lia.
    + apply Qmult_le_compat_r; [assumption|apply Qlt_le_weak, q10_pos].
Qed.

Lemma flip_compare s x y :
  flip s (x ?= y) = (qsign s * x ?= qsign s * y).
Proof.
  destruct s; cbn [flip qsign].
  - rewrite <- Qcompare_opp.
    assert (E1 : -1 * x == - x) by ring.
    assert (E2 : -1 * y == - y) by ring.
    now rewrite E1, E2.
  - now rewrite !Qmult_1_l.
Qed.

(** [_cmp] orders finite values as the rationals they stand for. *)
Lemma cmp_spec a b :
  is_finite a = true -> is_finite b = true ->
  _cmp a b = (value a ?= value b).
Proof.
  destruct a as [s1 c1 e1| |]; try discriminate.
  destruct b as [s2 c2 e2| |]; try discriminate.
  intros _ _. cbn [_cmp].
  destruct (N.eqb_spec c1 0) as [->|H1]; [|destruct (N.eqb_spec c2 0) as [->|H2]].
  - rewrite (value_zero s1 e1).
    destruct (N.eqb_spec c2 0) as [->|H2].
    + now rewrite value_zero.
    + rewrite value_mag. pose proof (mag_pos c2 e2 H2) as P.
      destruct s2; cbn [flip CompOpp qsign]; symmetry.
      * apply Qgt_alt. assert (E : -1 * mag c2 e2 == - mag c2 e2) by ring.
        rewrite E. change 0 with (- 0). now apply Qopp_lt_compat.
      * apply Qlt_alt. now rewrite Qmult_1_l.
  - rewrite (value_zero s2 e2), value_mag. pose proof (mag_pos c1 e1 H1) as P.
    destruct s1; cbn [flip CompOpp qsign]; symmetry.
    + apply Qlt_alt. assert (E : -1 * mag c1 e1 == - mag c1 e1) by ring.
      rewrite E. change 0 with (- 0). now apply Qopp_lt_compat.
    + apply Qgt_alt. now rewrite Qmult_1_l.
  - rewrite !value_mag.
    pose proof (mag_pos c1 e1 H1) as P1. pose proof (mag_pos c2 e2 H2) as P2.
    assert (N1 : -1 * mag c1 e1 < 0).
    { assert (E : -1 * mag c1 e1 == - mag c1 e1) by ring.
      rewrite E. change 0 with (- 0). now apply Qopp_lt_compat. }
    assert (N2 : -1 * mag c2 e2 < 0).
    { assert (E : -1 * mag c2 e2 == - mag c2 e2) by ring.
      rewrite E. change 0 with (- 0). now apply Qopp_lt_compat. }
    destruct s1, s2; cbn [negb andb].
    + (* both negative *)
      rewrite <- flip_compare.
      destruct (Z.eqb_spec (adjusted c1 e1) (adjusted c2 e2)) as [E|E].
      * now rewrite compare_padded.
      * destruct (Z.ltb_spec (adjusted c2 e2) (adjusted c1 e1)) as [L|L];
          f_equal; symmetry.
        -- apply Qgt_alt. apply adjusted_lt_mag; assumption.
        -- apply Qlt_alt. apply adjusted_lt_mag; try assumption. lia.
    + symmetry. apply Qlt_alt. cbn [qsign]. rewrite Qmult_1_l.
      now apply Qlt_trans with 0.
    + symmetry. apply Qgt_alt. cbn [qsign]. rewrite Qmult_1_l.
      now apply Qlt_trans with 0.
    + rewrite <- flip_compare.
      destruct (Z.eqb_spec (adjusted c1 e1) (adjusted c2 e2)) as [E|E].
      * now rewrite compare_padded.
      * destruct (Z.ltb_spec (adjusted c2 e2) (adjusted c1 e1)) as [L|L];
          f_equal; symmetry.
        -- apply Qgt_alt. apply adjusted_lt_mag; assumption.
        -- apply Qlt_alt. apply adjusted_lt_mag; try assumption. lia.
Qed.

Lemma lt_finite a b :
  is_finite a = true -> is_finite b = true ->
  lt a b = Return (match value a ?= value b with Lt => true | _ => false end).
Proof.
  intros Ha Hb. unfold lt, compare_signal.
  destruct a, b; try discriminate. cbn [is_nan orb bind].
  now rewrite cmp_spec.
Qed.

Lemma le_finite a b :
  is_finite a = true -> is_finite b = true ->
  le a b = Return (match value a ?= value b with Gt => false | _ => true end).
Proof.
  intros Ha Hb. unfold le, compare_signal.
  destruct a, b; try discriminate. cbn [is_nan orb bind].
  now rewrite cmp_spec.
Qed.

Lemma value_zero_const : value zero == 0.
Proof. reflexivity. Qed.

Lemma le_zero_false d :
  is_finite d = true -> 0 < value d -> le d zero = Return false.
Proof.
  intros F P. rewrite le_finite by (assumption || reflexivity).
  rewrite value_zero_const. apply Qgt_alt in P. now rewrite P.
Qed.


End CmpFacts.

Import DigitFacts Pow10 ValueFacts ArithFacts DivFacts CmpFacts.
Module EngineFacts.
Local Open Scope Q_scope.

Lemma fits_finite d : fits d -> is_finite d = true.
Proof. destruct d; simpl; tauto. Qed.

(** [_fix] on a finite value returns a finite value or signals overflow. *)
Lemma fix_cases s c e :
  (exists c' e', _fix (Finite s c e) = Return (Finite s c' e'))
  \/ _fix (Finite s c e) = Raise Overflow.
Proof.
  cbn [_fix]. destruct (c =? 0)%N; [left; eauto|].
  destruct (Etop <? _)%Z; [now right|].
  destruct (e <? _)%Z; [|left; eauto].
  destruct (prec <? _)%Z; [|left; eauto].
  destruct (Etop <? _)%Z; [now right|left; eauto].
Qed.




Lemma div_cases a b :
  is_finite a = true -> is_finite b = true -> is_zero b = false ->
  (exists d, div a b = Return d /\ is_finite d = true)
  \/ div a b = Raise Overflow.
Proof.
  destruct a as [s1 c1 e1| |], b as [s2 c2 e2| |]; try discriminate.
  intros _ _ Hz. cbn [is_zero] in Hz. cbn [div _check_nans]. rewrite Hz.
  destruct (c1 =? 0)%N.
  - destruct (fix_cases (xorb s1 s2) 0 (e1 - e2)) as [(c' & e' & E)|E];
      rewrite E; [left; eauto|now right].
  - cbv zeta.
    repeat match goal with
           | |- context [let (_, _) := ?p in _] => destruct p
           | |- context [if ?b then _ else _] => destruct b
           end;
      match goal with |- context [_fix (Finite ?s ?c ?e)] =>
        destruct (fix_cases s c e) as [(c' & e' & E)|E]; rewrite E end;
      first [solve [left; eauto] | now right].
Qed.

Lemma value_one_hundred : value one_hundred == 100.
Proof. reflexivity. Qed.

Lemma value_seven : value seven == 7.
Proof. reflexivity. Qed.

Lemma value_four_point_four : value four_point_four == 44 # 10.
Proof. reflexivity. Qed.


(** The numerator [eps * (7 + g * 100) * 4.4], exact when every
    intermediate result is representable. *)
Lemma numerator_exact eps g :
  is_finite eps = true -> is_finite g = true ->
  representable (value g * 100) ->
  representable (7 + value g * 100) ->
  representable (value eps * (7 + value g * 100)) ->
  representable (value eps * (7 + value g * 100) * (44 # 10)) ->
  exists a b c d,
    mul g one_hundred = Return a /\ add seven a = Return b /\
    mul eps b = Return c /\ mul c four_point_four = Return d /\
    fits d /\ value d == value eps * (7 + value g * 100) * (44 # 10).
Proof.
  intros Fe Fg R1 R2 R3 R4.
  destruct (mul_exact g one_hundred Fg eq_refl) as (a & Ea & Fa & Va).
  { now rewrite value_one_hundred. }
  rewrite value_one_hundred in Va.
  destruct (add_exact seven a eq_refl (fits_finite _ Fa)) as (b & Eb & Fb & Vb).
  { now rewrite value_seven, Va. }
  rewrite value_seven, Va in Vb.
  destruct (mul_exact eps b Fe (fits_finite _ Fb)) as (c & Ec & Fc & Vc).
  { now rewrite Vb. }
  rewrite Vb in Vc.
  destruct (mul_exact c four_point_four (fits_finite _ Fc) eq_refl)
    as (d & Ed & Fd & Vd).
  { now rewrite value_four_point_four, Vc. }
  rewrite value_four_point_four, Vc in Vd.
  exists a, b, c, d. repeat split; assumption.
Qed.

Lemma graham_exact eps g y :
  is_finite eps = true -> is_finite g = true -> is_finite y = true ->
  is_zero y = false ->
  representable (value g * 100) ->
  representable (7 + value g * 100) ->
  representable (value eps * (7 + value g * 100)) ->
  representable (value eps * (7 + value g * 100) * (44 # 10)) ->
  representable (value eps * (7 + value g * 100) * (44 # 10) / value y) ->
  exists v, graham_formula eps g y = Return v /\ fits v /\
            value v == value eps * (7 + value g * 100) * (44 # 10) / value y.
Proof.
  intros Fe Fg Fy Zy R1 R2 R3 R4 R5.
  destruct (numerator_exact eps g Fe Fg R1 R2 R3 R4)
    as (a & b & c & d & Ea & Eb & Ec & Ed & Fd & Vd).
  destruct (div_exact d y (fits_finite _ Fd) Fy Zy) as (v & Ev & Fv & Vv).
  { now rewrite Vd. }
  rewrite Vd in Vv.
  exists v. unfold graham_formula. rewrite Ea. cbn [bind].
  rewrite Eb. cbn [bind]. rewrite Ec. cbn [bind]. rewrite Ed. cbn [bind].
  auto.
Qed.

(** Past the guard: positive finite [eps] and [g]. *)
Lemma guard_passes eps g :
  is_finite eps = true -> is_finite g = true ->
  0 < value eps -> 0 < value g ->
  (b <- le_zero (Some eps) ;; if b then Return true else le_zero (Some g))%py
  = Return false.
Proof.
  intros Fe Fg Pe Pg. cbn [le_zero].
  rewrite (le_zero_false eps Fe Pe). cbn [bind].
  apply (le_zero_false g Fg Pg).
Qed.

Lemma engine_exact eps g y :
  is_finite eps = true -> is_finite g = true -> is_finite y = true ->
  0 < value eps -> 0 < value g -> is_zero y = false ->
  representable (value g * 100) ->
  representable (7 + value g * 100) ->
  representable (value eps * (7 + value g * 100)) ->
  representable (value eps * (7 + value g * 100) * (44 # 10)) ->
  representable (value eps * (7 + value g * 100) * (44 # 10) / value y) ->
  exists v,
    calculate_intrinsic_value (Some eps) (Some g) (Some y)
    = (Return (Some v), []) /\ fits v /\
    value v == value eps * (7 + value g * 100) * (44 # 10) / value y.
Proof.
  intros Fe Fg Fy Pe Pg Zy R1 R2 R3 R4 R5.
  destruct (graham_exact eps g y Fe Fg Fy Zy R1 R2 R3 R4 R5) as (v & Ev & Fv & Vv).
  exists v. unfold calculate_intrinsic_value.
  rewrite (guard_passes eps g Fe Fg Pe Pg), Ev. cbn [bind]. auto.
Qed.

End EngineFacts.

Import EngineFacts.

(** ** The valuation engine *)

Lemma round_half_even_le c k : (round_half_even c k <= c / pow10 k + 1)%N.
Proof.
  unfold round_half_even.
  destruct (_ || _)%bool; lia.
Qed.


(** Whatever [_fix] returns is held by the context. *)
Lemma fix_fits s c e d : _fix (Finite s c e) = Return d -> fits d.
Proof.
  cbn [_fix]. destruct (N.eqb_spec c 0) as [->|Hc].
  - intros [= <-]. cbn [fits]. ctx. rewrite ndigits_0. lia.
  - pose proof (ndigits_pos c) as Hp.
    destruct (Z.ltb_spec Etop (ndigits c + e - prec)) as [|Ho]; [discriminate|].
    set (exp_min := Z.max (ndigits c + e - prec) Etiny).
    destruct (Z.ltb_spec e exp_min) as [Hr|Hr].
    + set (c' := round_half_even c (exp_min - e)).
      assert (Hb : (c' <= pow10 prec)%N).
      { pose proof (round_half_even_le c (exp_min - e)) as Hle. fold c' in Hle.
        destruct (ndigits_bounds c Hc) as [_ Hhi].
        assert (Hq : (c / pow10 (exp_min - e) < pow10 prec)%N).
        { apply N.Div0.div_lt_upper_bound.
          rewrite <- pow10_add by (unfold exp_min; ctx; lia).
          eapply N.lt_le_trans; [exact Hhi|].
          apply pow10_le. unfold exp_min. ctx. lia. }
        lia. }
      destruct (Z.ltb_spec prec (ndigits c')) as [Hbig|Hsmall].
      * destruct (Z.ltb_spec Etop (exp_min + 1)) as [|Ht]; [discriminate|].
        intros [= <-]. cbn [fits].
        assert (Hd : ndigits (c' / 10) <= prec).
        { apply ndigits_le; [ctx; lia|].
          apply N.Div0.div_lt_upper_bound. pose proof (pow10_pos prec). lia. }
        unfold exp_min in *. ctx. lia.
      * intros [= <-]. cbn [fits]. unfold exp_min in *. ctx. lia.
    + intros [= <-]. cbn [fits]. unfold exp_min in *. ctx. lia.
Qed.

Lemma div_fits a b d :
  div a b = Return d -> is_finite d = true -> fits d.
Proof.
  destruct a as [s1 c1 e1|s1|sg1 s1 p1], b as [s2 c2 e2|s2|sg2 s2 p2].
  1: { unfold div. cbn [_check_nans]. cbv zeta.
       repeat match goal with
              | |- context [let (_, _) := ?p in _] => destruct p
              | |- context [if ?b then _ else _] => destruct b
              end;
         intros H _;
         match type of H with
         | Raise _ = _ => discriminate H
         | _ => now apply fix_fits in H
         end. }
  1: { cbn [div _check_nans]. intros [= <-] _. cbn [fits]. ctx.
       rewrite ndigits_0. lia. }
  all: try destruct sg1; try destruct sg2; cbn [div _check_nans];
    intros H F; try discriminate H; injection H as <-; discriminate F.
Qed.

(** A finite value returned by the engine is held by the context. *)
Lemma engine_value_fits eps g y v l :
  calculate_intrinsic_value eps g y = (Return (Some v), l) ->
  is_finite v = true -> fits v.
Proof.
  unfold calculate_intrinsic_value.
  destruct (_ <- le_zero eps ;; _)%py as [[|]|]; try discriminate.
  destruct eps as [eps|], g as [g|], y as [y|]; try discriminate.
  unfold graham_formula.
  destruct (mul g one_hundred) as [a|]; cbn [bind]; [|discriminate].
  destruct (add seven a) as [b|]; cbn [bind]; [|discriminate].
  destruct (mul eps b) as [c|]; cbn [bind]; [|discriminate].
  destruct (mul c four_point_four) as [d|]; cbn [bind]; [|discriminate].
  destruct (div d y) as [v'|] eqn:E; cbn [bind]; [|discriminate].
  intros [= <- <-]. now apply div_fits with d y.
Qed.








(** C1, as stated, fails at yield = 0: with eps = 2 and growth = 0.10 the
    engine raises [DivisionByZero] and returns no value. *)
Lemma intrinsic_value_zero_yield_counterexample :
  (0 < value (Finite false 2 0))%Q /\ (0 < value (Finite false 10 (-2)))%Q /\
  calculate_intrinsic_value
    (Some (Finite false 2 0)) (Some (Finite false 10 (-2)))
    (Some (Finite false 0 0))
  = (Raise DivisionByZero, []).
Proof. repeat split; vm_compute; reflexivity. Qed.

(** C1 (amended): for finite eps > 0, growth > 0 and yield <> 0 such that
    every intermediate result of eps * (7 + growth*100) * 4.4 / yield is
    representable in the decimal context, the engine returns exactly that
    value, logging nothing; for eps = 2, growth = 0.10, yield = 4.4 the
    intrinsic value is 34 and the margin of safety 27.2. *)
Theorem intrinsic_value_formula :
  (forall eps g y : Decimal,
      is_finite eps = true -> is_finite g = true -> is_finite y = true ->
      (0 < value eps)%Q -> (0 < value g)%Q -> is_zero y = false ->
      representable (value g * 100) ->
      representable (7 + value g * 100) ->
      representable (value eps * (7 + value g * 100)) ->
      representable (value eps * (7 + value g * 100) * (44 # 10)) ->
      representable (value eps * (7 + value g * 100) * (44 # 10) / value y) ->
      exists v,
        calculate_intrinsic_value (Some eps) (Some g) (Some y)
        = (Return (Some v), [])
        /\ (value v
            == value eps * (7 + value g * 100) * (44 # 10) / value y)%Q)
  /\ (exists v m,
         calculate_intrinsic_value
           (Some (Finite false 2 0)) (Some (Finite false 10 (-2)))
           (Some (Finite false 44 (-1)))
         = (Return (Some v), [])
         /\ (value v == 34)%Q
         /\ mul v point_eight = Return m /\ (value m == 272 # 10)%Q).
Proof.
  split.
  - intros eps g y Fe Fg Fy Pe Pg Zy R1 R2 R3 R4 R5.
    destruct (engine_exact eps g y Fe Fg Fy Pe Pg Zy R1 R2 R3 R4 R5)
      as (v & E & _ & V).
    exists v. split; assumption.
  - exists (Finite false 3400 (-2)), (Finite false 27200 (-3)).
    repeat split; vm_compute; reflexivity.
Qed.

Lemma intrinsic_value_formula_witness :
  exists v,
    calculate_intrinsic_value
      (Some (Finite false 3 0)) (Some (Finite false 5 (-2)))
      (Some (Finite false 8 0))
    = (Return (Some v), [])
    /\ (value v
        == value (Finite false 3 0) * (7 + value (Finite false 5 (-2)) * 100)
           * (44 # 10) / value (Finite false 8 0))%Q.
Proof.
  refine (proj1 intrinsic_value_formula
            (Finite false 3 0) (Finite false 5 (-2)) (Finite false 8 0)
            eq_refl eq_refl eq_refl _ _ eq_refl _ _ _ _ _).
  - vm_compute; reflexivity.
  - vm_compute; reflexivity.
  - exists (Finite false 5 0). split; [vm_compute; intuition discriminate|vm_compute; reflexivity].
  - exists (Finite false 12 0). split; [vm_compute; intuition discriminate|vm_compute; reflexivity].
  - exists (Finite false 36 0). split; [vm_compute; intuition discriminate|vm_compute; reflexivity].
  - exists (Finite false 1584 (-1)). split; [vm_compute; intuition discriminate|vm_compute; reflexivity].
  - exists (Finite false 198 (-1)). split; [vm_compute; intuition discriminate|vm_compute; reflexivity].
Defined.









(** ** The orchestrator *)


(** Destruct the scrutinee of the first match of the goal or of [H]. *)
Ltac split_match H :=
  match type of H with
  | context [match ?x with _ => _ end] =>
      let E := fresh "E" in destruct x eqn:E
  end.

Section Orchestrator.
Variables W Page : Type.
Variable env : Env W Page.







End Orchestrator.


(** The loop leaves one entry per ticker, in order: no iteration stops it. *)
Lemma ticker_loop_covers (W Page : Type) (env : Env W Page) tickers :
  forall worth_buying st,
    map fst (fst (fst (ticker_loop env tickers worth_buying st))) = tickers.
Proof.
  induction tickers as [|t rest IH]; intros wb st; [reflexivity|].
  cbn [ticker_loop].
  destruct (process_ticker env t st) as [r st1].
  specialize (IH (if buys r then wb ++ [t] else wb) st1).
  destruct (ticker_loop env rest _ st1) as [[results wb'] st2].
  cbn [fst map] in *. now rewrite IH.
Qed.



(** C5: when the ticker file is missing or empty, [main] logs the read error
    and "No tickers to process." and returns at once: after the banner
    nothing is printed, neither a summary nor the none-found message. *)
Theorem missing_or_empty_ticker_file_aborts :
  forall (W Page : Type) (env : Env W Page) (st : state W),
    file_content env (lit "tickers.json") = None
    \/ file_content env (lit "tickers.json") = Some [] ->
    exists e,
      main env st
      = (Return tt,
         {| world := world st;
            log := log st ++ [(ERROR, JSONReadFailed e); (ERROR, NoTickers)];
            out := out st ++ [ClearScreen; Banner] |}).
Proof.
  intros W Page env st H.
  unfold main, try_except, mbind, print, lift_logged, logging, ret,
    read_tickers_from_json.
  destruct H as [H|H]; rewrite H.
  - exists FileNotFoundError. cbn. now rewrite <- !app_assoc.
  - exists JSONDecodeError. cbn. now rewrite <- !app_assoc.
Qed.

Lemma missing_or_empty_ticker_file_aborts_witness :
  exists e,
    main offline_env (start tt)
    = (Return tt,
       {| world := tt;
          log := [(ERROR, JSONReadFailed e); (ERROR, NoTickers)];
          out := [ClearScreen; Banner] |}).
Proof.
  exact (missing_or_empty_ticker_file_aborts unit unit offline_env (start tt)
           (or_introl eq_refl)).
Defined.


(** ** Text handling *)
Module TextFacts.

(** Checking a property of characters on all 256 of them. *)
Ltac by_cases_on_ascii c :=
  destruct c as [[] [] [] [] [] [] [] []]; vm_compute; try reflexivity;
  intros; try discriminate; auto.

(** A digit is no space, comma, underscore, sign, point or letter. *)
Lemma digit_plain c :
  is_digit c = true ->
  is_space c = false /\ Ascii.eqb c comma = false
  /\ Ascii.eqb c underscore = false /\ lower c = c
  /\ c <> "-"%char /\ c <> "+"%char /\ c <> "."%char
  /\ Ascii.eqb c percent = false.
Proof. by_cases_on_ascii c; repeat split; discriminate. Qed.

Lemma digits_plain ds : all_digits ds -> forallb plain ds = true.
Proof.
  unfold all_digits. induction ds as [|c ds IH]; [reflexivity|].
  cbn [forallb]. rewrite !andb_true_iff. intros [Hc Hd].
  split; [|now apply IH].
  destruct (digit_plain c Hc) as (H1 & H2 & H3 & _ & _ & _ & _ & H4).
  unfold plain. now rewrite H1, H2, H3, H4.
Qed.

Lemma lstrip_plain p s :
  match s with [] => True | c :: _ => p c = false end -> lstrip p s = s.
Proof. destruct s as [|c s]; [reflexivity|]. cbn. now intros ->. Qed.

Lemma lstrip_spaces p ws s :
  forallb p ws = true -> lstrip p (ws ++ s) = lstrip p s.
Proof.
  induction ws as [|c ws IH]; [reflexivity|].
  cbn [forallb app lstrip]. rewrite andb_true_iff. intros [-> H]. now apply IH.
Qed.

(** [strip] removes the surrounding characters of the class and nothing
    else when the core starts and ends outside the class. *)
Lemma strip_by_core p ws1 r ws2 :
  forallb p ws1 = true -> forallb p ws2 = true ->
  forallb (fun c => negb (p c)) r = true ->
  strip_by p (ws1 ++ r ++ ws2) = r.
Proof.
  intros H1 H2 Hr. unfold strip_by, rstrip.
  rewrite lstrip_spaces by assumption.
  destruct r as [|c r].
  - cbn [app]. clear H1 Hr.
    assert (E : lstrip p ws2 = []).
    { rewrite <- (app_nil_r ws2). rewrite lstrip_spaces by assumption.
      reflexivity. }
    rewrite E. reflexivity.
  - cbn [forallb] in Hr. apply andb_true_iff in Hr. destruct Hr as [Hc Hr].
    apply negb_true_iff in Hc.
    cbn [app lstrip]. rewrite Hc.
    change (c :: r ++ ws2) with ((c :: r) ++ ws2).
    rewrite rev_app_distr, lstrip_spaces.
    + rewrite lstrip_plain; [apply rev_involutive|].
      destruct (rev (c :: r)) as [|x l] eqn:E; [exact I|].
      assert (In x (c :: r)) by (apply in_rev; rewrite E; now left).
      assert (A : forallb (fun c => negb (p c)) (c :: r) = true)
        by (cbn [forallb]; now rewrite Hc, Hr).
      rewrite forallb_forall in A. apply negb_true_iff. now apply A.
    + rewrite forallb_forall in *. intros x Hx. apply H2.
      now apply in_rev.
Qed.

Lemma strip_by_id p r :
  forallb (fun c => negb (p c)) r = true -> strip_by p r = r.
Proof.
  intros H. rewrite <- (strip_by_core p [] r []) at 2 by (assumption || reflexivity).
  now rewrite app_nil_r.
Qed.

Lemma remove_char_id c s :
  forallb (fun x => negb (Ascii.eqb x c)) s = true -> remove_char c s = s.
Proof.
  unfold remove_char. induction s as [|x s IH]; [reflexivity|].
  cbn [forallb filter]. rewrite andb_true_iff. intros [-> H].
  now rewrite IH.
Qed.

Lemma remove_char_app c a b :
  remove_char c (a ++ b) = remove_char c a ++ remove_char c b.
Proof. apply filter_app. Qed.

Lemma forallb_weaken {A} (p q : A -> bool) l :
  (forall x, p x = true -> q x = true) ->
  forallb p l = true -> forallb q l = true.
Proof.
  intros H. rewrite !forallb_forall. intros Hp x Hx. now apply H, Hp.
Qed.

Lemma plain_no_space s :
  forallb plain s = true -> forallb (fun c => negb (is_space c)) s = true.
Proof.
  apply forallb_weaken. intros x. unfold plain.
  rewrite !andb_true_iff. tauto.
Qed.

Lemma plain_no_comma s :
  forallb plain s = true ->
  forallb (fun c => negb (Ascii.eqb c comma)) s = true.
Proof.
  apply forallb_weaken. intros x. unfold plain.
  rewrite !andb_true_iff. tauto.
Qed.

Lemma plain_no_percent s :
  forallb plain s = true ->
  forallb (fun c => negb (Ascii.eqb c percent)) s = true.
Proof.
  apply forallb_weaken. intros x. unfold plain.
  rewrite !andb_true_iff. tauto.
Qed.

Lemma plain_no_underscore s :
  forallb plain s = true ->
  forallb (fun c => negb (Ascii.eqb c underscore)) s = true.
Proof.
  apply forallb_weaken. intros x. unfold plain.
  rewrite !andb_true_iff. tauto.
Qed.

(** On plain text [Decimal(...)] goes straight to the numeral. *)
Lemma of_string_plain s :
  forallb plain s = true ->
  of_string s
  = let (sign, r) := take_sign s in
    match parse_finite sign r with
    | Some d => Return d
    | None =>
        match parse_special sign r with
        | Some d => Return d
        | None => Raise InvalidOperation
        end
    end.
Proof.
  intros H. unfold of_string, strip.
  rewrite strip_by_id by now apply plain_no_space.
  rewrite remove_char_id by now apply plain_no_underscore.
  reflexivity.
Qed.

(** [span_digits] splits at the first character that is no digit. *)
Lemma span_digits_app ds rest :
  all_digits ds ->
  match rest with [] => True | c :: _ => is_digit c = false end ->
  span_digits (ds ++ rest) = (ds, rest).
Proof.
  unfold all_digits. intros Hd Hr. induction ds as [|c ds IH].
  - destruct rest as [|c rest]; [reflexivity|]. cbn. now rewrite Hr.
  - cbn [forallb] in Hd. apply andb_true_iff in Hd. destruct Hd as [Hc Hd].
    cbn [app span_digits]. rewrite Hc, (IH Hd). reflexivity.
Qed.

Lemma span_digits_all ds : all_digits ds -> span_digits ds = (ds, []).
Proof.
  intros H. rewrite <- (app_nil_r ds) at 1. now apply span_digits_app.
Qed.

Lemma all_digits_firstn n ds : all_digits ds -> all_digits (firstn n ds).
Proof.
  intros H. rewrite <- (firstn_skipn n ds) in H.
  now apply all_digits_app in H.
Qed.

Lemma all_digits_skipn n ds : all_digits ds -> all_digits (skipn n ds).
Proof.
  intros H. rewrite <- (firstn_skipn n ds) in H.
  now apply all_digits_app in H.
Qed.

Lemma all_digits_zeros k : all_digits (zeros k).
Proof.
  unfold zeros, all_digits. induction (Z.to_nat k); [reflexivity|].
  cbn [repeat forallb]. now rewrite IHn.
Qed.

End TextFacts.


(** ** Reading numerals *)
Module ParseFacts.
Import TextFacts.

Lemma take_sign_other c r :
  c <> "-"%char -> c <> "+"%char -> take_sign (c :: r) = (false, c :: r).
Proof.
  intros H1 H2.
  destruct c as [[] [] [] [] [] [] [] []]; try reflexivity; congruence.
Qed.

Lemma take_sign_sign_str s c r :
  c <> "-"%char -> c <> "+"%char ->
  take_sign (sign_str s ++ c :: r) = (s, c :: r).
Proof.
  intros H1 H2. destruct s; [reflexivity|]. now apply take_sign_other.
Qed.

Lemma signed_abs z : signed (z <? 0) (Z.abs_N z) = z.
Proof.
  unfold signed. rewrite N2Z.inj_abs_N. destruct (Z.ltb_spec z 0); lia.
Qed.

Lemma str_of_N_digits n : all_digits (str_of_N n).
Proof. apply str_of_N_spec. Qed.

Lemma str_of_N_value n : int_of_digits (str_of_N n) = n.
Proof. apply str_of_N_spec. Qed.

Lemma str_of_N_nonempty n : str_of_N n <> [].
Proof.
  pose proof (str_of_N_spec n) as (_ & _ & H & _).
  destruct (str_of_N n); [cbn in H; lia|discriminate].
Qed.

Lemma parse_exp_signed z : parse_exp (str_of_Z_signed z) = Some z.
Proof.
  unfold parse_exp, str_of_Z_signed.
  assert (E : take_sign ((if z <? 0 then "-"%char else "+"%char)
                         :: str_of_N (Z.abs_N z))
              = (z <? 0, str_of_N (Z.abs_N z)))
    by (destruct (z <? 0); reflexivity).
  rewrite E, span_digits_all by apply str_of_N_digits.
  pose proof (str_of_N_nonempty (Z.abs_N z)) as Hn.
  destruct (str_of_N (Z.abs_N z)) as [|c l] eqn:Es; [contradiction|].
  rewrite <- Es, str_of_N_value, signed_abs. reflexivity.
Qed.

Lemma head_not_digit_dot_exp fp x :
  match dot_part fp ++ exp_part x with
  | [] => True
  | c :: _ => is_digit c = false
  end.
Proof. destruct fp, x; cbn; auto. Qed.

Lemma head_not_digit_exp x :
  match exp_part x with [] => True | c :: _ => is_digit c = false end.
Proof. destruct x; cbn; auto. Qed.

(** [parse_finite] reads the text of a numeral back. *)
Lemma parse_finite_body sign ip fp x :
  all_digits ip -> all_digits (frac_digits fp) ->
  ip ++ frac_digits fp <> [] ->
  parse_finite sign (numeral_body ip fp x)
  = Some (Finite sign (int_of_digits (ip ++ frac_digits fp))
            (exp_value x - Z.of_nat (List.length (frac_digits fp)))).
Proof.
  intros Hi Hf Hne. unfold parse_finite, numeral_body.
  rewrite span_digits_app by (assumption || apply head_not_digit_dot_exp).
  cbv beta iota.
  assert (Hfin : forall fp0 r2,
             (fp0, r2) = (frac_digits fp, exp_part x) ->
             match ip ++ fp0 with
             | [] => None
             | _ :: _ =>
                 match r2 with
                 | [] =>
                     Some (Finite sign (int_of_digits (ip ++ fp0))
                             (- Z.of_nat (List.length fp0)))
                 | x0 :: r3 =>
                     if Ascii.eqb (lower x0) "e"%char then
                       match parse_exp r3 with
                       | Some e =>
                           Some (Finite sign (int_of_digits (ip ++ fp0))
                                   (e - Z.of_nat (List.length fp0)))
                       | None => None
                       end
                     else None
                 end
             end
             = Some (Finite sign (int_of_digits (ip ++ frac_digits fp))
                       (exp_value x
                        - Z.of_nat (List.length (frac_digits fp))))).
  { intros fp0 r2 [= -> ->].
    destruct (ip ++ frac_digits fp) as [|c l] eqn:El; [contradiction|].
    rewrite <- El.
    destruct x as [z|]; cbn [exp_part exp_value].
    - change (Ascii.eqb (lower "E") "e") with true. cbv iota.
      now rewrite parse_exp_signed.
    - reflexivity. }
  destruct fp as [f|]; cbn [dot_part frac_digits app] in *.
  - cbv iota.
    rewrite span_digits_app by (assumption || apply head_not_digit_exp).
    exact (Hfin _ _ eq_refl).
  - destruct x as [z|]; cbn [exp_part] in *; exact (Hfin _ _ eq_refl).
Qed.

Lemma plain_sign_str s : forallb plain (sign_str s) = true.
Proof. now destruct s. Qed.

Lemma plain_str_of_Z_signed z : forallb plain (str_of_Z_signed z) = true.
Proof.
  unfold str_of_Z_signed. cbn [forallb].
  rewrite digits_plain by apply str_of_N_digits. now destruct (z <? 0).
Qed.

Lemma plain_numeral_body ip fp x :
  all_digits ip -> all_digits (frac_digits fp) ->
  forallb plain (numeral_body ip fp x) = true.
Proof.
  intros Hi Hf. unfold numeral_body. rewrite !forallb_app.
  rewrite (digits_plain ip Hi).
  destruct fp as [f|], x as [z|]; cbn [dot_part exp_part forallb frac_digits] in *;
    rewrite ?digits_plain, ?plain_str_of_Z_signed by assumption; reflexivity.
Qed.

(** Reading a signed numeral whose integer part is not empty. *)
Lemma of_string_numeral sign ip fp x :
  all_digits ip -> all_digits (frac_digits fp) -> ip <> [] ->
  of_string (sign_str sign ++ numeral_body ip fp x)
  = Return (Finite sign (int_of_digits (ip ++ frac_digits fp))
              (exp_value x - Z.of_nat (List.length (frac_digits fp)))).
Proof.
  intros Hi Hf Hne. rewrite of_string_plain.
  - destruct ip as [|c ip]; [contradiction|].
    assert (Hc : is_digit c = true).
    { unfold all_digits in Hi. cbn [forallb] in Hi.
      now apply andb_true_iff in Hi. }
    destruct (digit_plain c Hc) as (_ & _ & _ & _ & N1 & N2 & _).
    change (numeral_body (c :: ip) fp x)
      with (c :: numeral_body ip fp x).
    rewrite take_sign_sign_str by assumption.
    change (c :: numeral_body ip fp x) with (numeral_body (c :: ip) fp x).
    rewrite parse_finite_body by (assumption || discriminate). reflexivity.
  - rewrite forallb_app, plain_sign_str, plain_numeral_body by assumption.
    reflexivity.
Qed.

End ParseFacts.


(** ** The scientific string of a value is read back as that value *)
Module RoundTrip.
Import TextFacts ParseFacts.

Lemma length_zeros k : List.length (zeros k) = Z.to_nat k.
Proof. apply repeat_length. Qed.

Lemma int_of_digits_zero_zeros k ds :
  int_of_digits (lit "0" ++ zeros k ++ ds) = int_of_digits ds.
Proof.
  change (lit "0" ++ zeros k ++ ds)
    with (repeat "0"%char (S (Z.to_nat k)) ++ ds).
  apply int_of_digits_zeros.
Qed.

(** The layout [__str__] chooses, as a numeral. *)
Lemma to_string_finite_shape s c e :
  exists ip fp x,
    to_string (Finite s c e) = sign_str s ++ numeral_body ip fp x
    /\ all_digits ip /\ all_digits (frac_digits fp) /\ ip <> []
    /\ int_of_digits (ip ++ frac_digits fp) = c
    /\ exp_value x - Z.of_nat (List.length (frac_digits fp)) = e.
Proof.
  pose proof (str_of_N_digits c) as Hd.
  pose proof (str_of_N_value c) as Hv.
  pose proof (str_of_N_nonempty c) as Hne.
  unfold to_string. set (ds := str_of_N c) in *.
  set (len := Z.of_nat (List.length ds)).
  assert (Hlen : 1 <= len).
  { unfold len. destruct ds; [contradiction|]. cbn [List.length]. lia. }
  cbv zeta.
  set (dotplace := if (e <=? 0) && (-6 <? e + len) then e + len else 1).
  set (x := if e + len =? dotplace then None else Some (e + len - dotplace)).
  assert (Hx : exp_value x = e + len - dotplace).
  { unfold x. destruct (Z.eqb_spec (e + len) dotplace); cbn; lia. }
  assert (Ex : (if e + len =? dotplace then []
                else "E"%char :: str_of_Z_signed (e + len - dotplace))
               = exp_part x).
  { unfold x. now destruct (e + len =? dotplace). }
  rewrite Ex.
  assert (Hdot : dotplace <= len).
  { unfold dotplace.
    destruct (Z.leb_spec e 0), (Z.ltb_spec (-6) (e + len)); cbn [andb]; lia. }
  destruct (Z.leb_spec dotplace 0) as [Ha|Ha].
  - exists (lit "0"), (Some (zeros (- dotplace) ++ ds)), x.
    cbn [frac_digits]. repeat split.
    + apply all_digits_app. split; [apply all_digits_zeros|assumption].
    + discriminate.
    + rewrite int_of_digits_zero_zeros. exact Hv.
    + rewrite Hx, length_app, length_zeros. fold len.
      rewrite Nat2Z.inj_add, Z2Nat.id by lia. fold len. lia.
  - destruct (Z.leb_spec len dotplace) as [Hb|Hb].
    + exists ds, None, x. cbn [frac_digits List.length].
      assert (E0 : dotplace - len = 0) by lia. rewrite E0.
      change (zeros 0) with (@nil ascii). rewrite !app_nil_r.
      repeat split; try assumption; try reflexivity.
      cbn [List.length Z.of_nat]. lia.
    + exists (firstn (Z.to_nat dotplace) ds),
             (Some (skipn (Z.to_nat dotplace) ds)), x.
      cbn [frac_digits]. repeat split.
      * now apply all_digits_firstn.
      * now apply all_digits_skipn.
      * destruct ds as [|d ds']; [contradiction|].
        destruct (Z.to_nat dotplace) as [|n] eqn:En; [lia|discriminate].
      * now rewrite firstn_skipn.
      * rewrite Hx, length_skipn. fold len.
        rewrite Nat2Z.inj_sub by (unfold len in Hb; lia).
        rewrite Z2Nat.id by lia. fold len. lia.
Qed.

Lemma of_string_to_string_finite s c e :
  of_string (to_string (Finite s c e)) = Return (Finite s c e).
Proof.
  destruct (to_string_finite_shape s c e)
    as (ip & fp & x & E & Hi & Hf & Hne & Hv & He).
  rewrite E, of_string_numeral by assumption. now rewrite Hv, He.
Qed.

Lemma plain_to_string_finite s c e :
  forallb plain (to_string (Finite s c e)) = true.
Proof.
  destruct (to_string_finite_shape s c e)
    as (ip & fp & x & E & Hi & Hf & _).
  rewrite E, forallb_app, plain_sign_str, plain_numeral_body by assumption.
  reflexivity.
Qed.

End RoundTrip.

Import TextFacts ParseFacts RoundTrip.

Lemma map_lower_digits ds : all_digits ds -> map lower ds = ds.
Proof.
  unfold all_digits. induction ds as [|c ds IH]; [reflexivity|].
  cbn [forallb map]. rewrite andb_true_iff. intros [Hc Hd].
  destruct (digit_plain c Hc) as (_ & _ & _ & -> & _). now rewrite IH.
Qed.

(** The diagnostic digits of a NaN, as [__str__] writes them. *)
Lemma payload_digits p :
  let d := if (p =? 0)%N then [] else str_of_N p in
  all_digits d /\ int_of_digits d = p.
Proof.
  destruct (N.eqb_spec p 0) as [->|_]; cbn zeta.
  - split; reflexivity.
  - split; [apply str_of_N_digits|apply str_of_N_value].
Qed.

Lemma of_string_to_string_nan sg s p :
  of_string (to_string (NaN sg s p)) = Return (NaN sg s p).
Proof.
  destruct (payload_digits p) as [Hd Hv]. cbn zeta in Hd, Hv.
  unfold to_string.
  set (d := if (p =? 0)%N then [] else str_of_N p) in *.
  rewrite of_string_plain.
  - destruct sg.
    + change (sign_str s ++ lit "sNaN" ++ d)
        with (sign_str s ++ "s"%char :: lit "NaN" ++ d).
      rewrite take_sign_sign_str by discriminate.
      change (parse_finite s ("s"%char :: lit "NaN" ++ d)) with (@None Decimal).
      unfold parse_special. cbn [map app lit list_ascii_of_string].
      rewrite (map_lower_digits d Hd).
      unfold str_eqb.
      destruct (list_eq_dec _ _ _) as [E|_]; [discriminate E|].
      destruct (list_eq_dec _ _ _) as [E|_]; [discriminate E|].
      cbn [orb]. change (lower "s") with "s"%char.
      change (lower "N") with "n"%char. change (lower "a") with "a"%char.
      cbv iota. unfold all_digits in Hd. now rewrite Hd, Hv.
    + change (sign_str s ++ lit "NaN" ++ d)
        with (sign_str s ++ "N"%char :: lit "aN" ++ d).
      rewrite take_sign_sign_str by discriminate.
      change (parse_finite s ("N"%char :: lit "aN" ++ d)) with (@None Decimal).
      unfold parse_special. cbn [map app lit list_ascii_of_string].
      rewrite (map_lower_digits d Hd).
      unfold str_eqb.
      destruct (list_eq_dec _ _ _) as [E|_]; [discriminate E|].
      destruct (list_eq_dec _ _ _) as [E|_]; [discriminate E|].
      cbn [orb]. change (lower "N") with "n"%char.
      change (lower "a") with "a"%char.
      cbv iota. unfold all_digits in Hd. now rewrite Hd, Hv.
  - rewrite !forallb_app, plain_sign_str, (digits_plain d Hd).
    now destruct sg.
Qed.

Lemma plain_to_string d : forallb plain (to_string d) = true.
Proof.
  destruct d as [s c e|s|sg s p].
  - apply plain_to_string_finite.
  - now destruct s.
  - destruct (payload_digits p) as [Hd _]. cbn zeta in Hd.
    unfold to_string. rewrite !forallb_app, plain_sign_str, (digits_plain _ Hd).
    now destruct sg.
Qed.

(** [Decimal(str(d))] is [d]. *)
Lemma of_string_to_string d : of_string (to_string d) = Return d.
Proof.
  destruct d as [s c e|s|sg s p].
  - apply of_string_to_string_finite.
  - now destruct s.
  - apply of_string_to_string_nan.
Qed.

(** C10: parsing an already parsed price again, through its string form,
    returns the same value (sign, coefficient and exponent, or the same
    special value), logs nothing and never fails. *)
Theorem parse_stock_price_idempotent (d : Decimal) :
  parse_stock_price (PDec d) = (Return (Some d), []).
Proof.
  unfold parse_stock_price. pose proof (plain_to_string d) as Hp.
  rewrite remove_char_id by now apply plain_no_comma.
  unfold strip. rewrite strip_by_id by now apply plain_no_space.
  now rewrite of_string_to_string.
Qed.


(** ** Plain numerals and their value *)
Module NumeralFacts.
Import TextFacts ParseFacts.
Local Open Scope Q_scope.

Lemma int_value_acc ds : forall a : N,
  fold_left (fun a c => a * 10 + digit_q c) ds (qN a)
  == qN (fold_left (fun a c => (10 * a + digit_val c)%N) ds a).
Proof.
  induction ds as [|c ds IH]; intros a; [reflexivity|].
  cbn [fold_left]. rewrite <- IH.
  assert (E : qN a * 10 + digit_q c == qN (10 * a + digit_val c)).
  { unfold digit_q, qN. rewrite N2Z.inj_add, N2Z.inj_mul, inject_Z_plus,
      inject_Z_mult. change (inject_Z (Z.of_N 10)) with 10. ring. }
  clear IH. revert E.
  generalize (qN a * 10 + digit_q c) (qN (10 * a + digit_val c)).
  induction ds as [|d ds IH]; intros x y E; [exact E|].
  cbn [fold_left]. apply IH. now rewrite E.
Qed.

Lemma int_value_spec ds : int_value ds == qN (int_of_digits ds).
Proof. apply (int_value_acc ds 0%N). Qed.

Lemma q10_neg_succ n :
  q10 (- Z.of_nat (S n)) == q10 (- Z.of_nat n) / 10.
Proof.
  replace (- Z.of_nat (S n))%Z with (- Z.of_nat n - 1)%Z by lia.
  rewrite q10_sub. reflexivity.
Qed.

Lemma frac_value_spec ds :
  frac_value ds
  == qN (int_of_digits ds) * q10 (- Z.of_nat (List.length ds)).
Proof.
  induction ds as [|c ds IH].
  - unfold frac_value, int_of_digits. cbn. reflexivity.
  - change (frac_value (c :: ds)) with ((digit_q c + frac_value ds) / 10).
    rewrite IH, int_of_digits_cons.
    cbn [List.length]. rewrite q10_neg_succ.
    assert (E : qN (digit_val c * 10 ^ N.of_nat (List.length ds)
                    + int_of_digits ds)
                == digit_q c * q10 (Z.of_nat (List.length ds))
                   + qN (int_of_digits ds)).
    { unfold digit_q. rewrite q10_N by lia.
      unfold qN, pow10. rewrite N2Z.inj_add, N2Z.inj_mul, inject_Z_plus,
        inject_Z_mult. rewrite <- nat_N_Z, N2Z.id. reflexivity. }
    rewrite E.
    assert (U : q10 (Z.of_nat (List.length ds))
                * q10 (- Z.of_nat (List.length ds)) == 1).
    { rewrite <- q10_add. rewrite Z.add_opp_diag_r. reflexivity. }
    set (P := q10 (Z.of_nat (List.length ds))) in *.
    set (M := q10 (- Z.of_nat (List.length ds))) in *.
    transitivity ((digit_q c * (P * M) + qN (int_of_digits ds) * M) / 10).
    + rewrite U. field.
    + field.
Qed.

(** The decimal read from a numeral has the numeral's value. *)
Lemma numeral_decimal_value s ip fp :
  value (Finite (is_negative s)
           (int_of_digits (ip ++ frac_digits fp))
           (0 - Z.of_nat (List.length (frac_digits fp))))
  == numeral_value s ip fp.
Proof.
  unfold numeral_value. rewrite value_Finite, int_of_digits_app.
  rewrite int_value_spec, frac_value_spec.
  set (f := frac_digits fp). cbn [Z.sub Z.add Z.opp].
  replace (0 - Z.of_nat (List.length f))%Z with (- Z.of_nat (List.length f))%Z
    by lia.
  assert (E : qN (int_of_digits ip * 10 ^ N.of_nat (List.length f)
                  + int_of_digits f)
              == qN (int_of_digits ip) * q10 (Z.of_nat (List.length f))
                 + qN (int_of_digits f)).
  { rewrite q10_N by lia. unfold qN, pow10.
    rewrite N2Z.inj_add, N2Z.inj_mul, inject_Z_plus, inject_Z_mult.
    rewrite <- nat_N_Z, N2Z.id. reflexivity. }
  rewrite E.
  assert (U : q10 (Z.of_nat (List.length f)) * q10 (- Z.of_nat (List.length f))
              == 1).
  { rewrite <- q10_add. rewrite Z.add_opp_diag_r. reflexivity. }
  set (P := q10 (Z.of_nat (List.length f))) in *.
  set (M := q10 (- Z.of_nat (List.length f))) in *.
  transitivity (qsign (is_negative s)
                * (qN (int_of_digits ip) * (P * M) + qN (int_of_digits f) * M)).
  - ring.
  - rewrite U. ring.
Qed.

Lemma plain_sign_text s : forallb plain (sign_text s) = true.
Proof. now destruct s as [[|]|]. Qed.

Lemma plain_numeral_text s ip fp :
  valid_numeral ip fp -> forallb plain (numeral_text s ip fp) = true.
Proof.
  intros (Hi & Hf & _). unfold numeral_text.
  now rewrite forallb_app, plain_sign_text, plain_numeral_body.
Qed.

(** [Decimal(...)] on the text of a plain numeral. *)
Lemma of_string_numeral_text s ip fp :
  valid_numeral ip fp ->
  of_string (numeral_text s ip fp)
  = Return (Finite (is_negative s)
              (int_of_digits (ip ++ frac_digits fp))
              (0 - Z.of_nat (List.length (frac_digits fp)))).
Proof.
  intros V. pose proof V as (Hi & Hf & Hne).
  rewrite of_string_plain by now apply plain_numeral_text.
  assert (T : take_sign (numeral_text s ip fp)
              = (is_negative s, numeral_body ip fp None)).
  { unfold numeral_text. destruct s as [[|]|]; try reflexivity.
    cbn [sign_text app is_negative].
    destruct (numeral_body ip fp None) as [|c r] eqn:E; [reflexivity|].
    apply take_sign_other.
    - intros ->. unfold numeral_body in E.
      destruct ip as [|i ip].
      + destruct fp as [f|]; cbn in E; [discriminate|].
        discriminate.
      + injection E as -> _. unfold all_digits in Hi. cbn in Hi. discriminate.
    - intros ->. unfold numeral_body in E.
      destruct ip as [|i ip].
      + destruct fp as [f|]; cbn in E; [discriminate|].
        discriminate.
      + injection E as -> _. unfold all_digits in Hi. cbn in Hi. discriminate. }
  rewrite T, parse_finite_body by assumption. reflexivity.
Qed.

End NumeralFacts.

Import NumeralFacts.

(** ** The two parsers *)

(** A text that is no numeral makes [Decimal(...)] raise
    [InvalidOperation], and nothing else. *)
Lemma of_string_raises s e : of_string s = Raise e -> e = InvalidOperation.
Proof.
  unfold of_string. destruct (take_sign _) as [sg r].
  destruct (parse_finite sg r); [discriminate|].
  destruct (parse_special sg r); [discriminate|]. now intros [= <-].
Qed.


Lemma spaces_are_spaces ws :
  forallb is_space ws = true ->
  forallb (fun c => is_space c) ws = true.
Proof. now apply forallb_weaken. Qed.





Lemma percents_no_comma ws :
  forallb (fun c => Ascii.eqb c percent) ws = true ->
  remove_char comma ws = ws.
Proof.
  intros H. apply remove_char_id. revert H. apply forallb_weaken.
  intros c. by_cases_on_ascii c.
Qed.

(** The pre-processing of [parse_float] on a numeral with commas in it and
    percent signs around it. *)
Lemma ratio_text_cleaned pre body post s ip fp :
  forallb (fun c => Ascii.eqb c percent) pre = true ->
  forallb (fun c => Ascii.eqb c percent) post = true ->
  valid_numeral ip fp ->
  remove_char comma body = numeral_text s ip fp ->
  strip_percent (remove_char comma (pre ++ body ++ post))
  = numeral_text s ip fp.
Proof.
  intros H1 H2 V E.
  rewrite !remove_char_app, E, !percents_no_comma by assumption.
  unfold strip_percent. apply strip_by_core; try assumption.
  apply plain_no_percent. now apply plain_numeral_text.
Qed.

(** Dividing a parsed finite value by 100. *)
Lemma parse_float_divides text d :
  of_string (strip_percent (remove_char comma text)) = Return d ->
  is_finite d = true ->
  representable (value d / 100) ->
  exists v,
    parse_float text = (Return (Some v), [])
    /\ is_finite v = true /\ (value v == value d / 100)%Q.
Proof.
  intros E F R. unfold parse_float. rewrite E. cbn [bind].
  destruct (div_exact d one_hundred F eq_refl eq_refl) as (v & Ev & Fv & Vv).
  { now rewrite value_one_hundred. }
  rewrite Ev. exists v. split; [reflexivity|].
  split; [now apply fits_finite|]. now rewrite Vv, value_one_hundred.
Qed.

(** C7, as stated, fails on a leading percent sign: read as the claim words
    it (one trailing percent sign is stripped) the text "%5" is malformed
    and gives nothing, while the code strips the sign and returns 0.05. *)
Lemma parse_ratio_leading_percent_counterexample :
  parse_ratio_spec (lit "%5") = None
  /\ parse_float (lit "%5") = (Return (Some (Finite false 5 (-2))), []).
Proof. split; vm_compute; reflexivity. Qed.

(** C7 (amended): [parse_float] removes every comma and every leading and
    trailing percent sign and reads the rest as an exact decimal.  When that
    fails it logs the text with the error and returns nothing, without
    raising.  Otherwise it divides by 100, percent sign or not, and the
    quotient is exact whenever it is representable in the decimal context;
    so a plain numeral with commas in it and percent signs around it gives
    its value divided by 100, and "12.5%" gives exactly 0.125, as "12.5"
    does. *)
Theorem parse_float_divides_by_100 :
  (forall (text : str) (e : exn),
      of_string (strip_percent (remove_char comma text)) = Raise e ->
      parse_float text = (Return None, [(ERROR, ParseFloatFailed text e)]))
  /\ (forall (text : str) (d : Decimal),
         of_string (strip_percent (remove_char comma text)) = Return d ->
         is_finite d = true ->
         representable (value d / 100) ->
         exists v,
           parse_float text = (Return (Some v), [])
           /\ is_finite v = true /\ (value v == value d / 100)%Q)
  /\ (forall (pre body post : str) (s : option bool) (ip : str)
             (fp : option str),
         forallb (fun c => Ascii.eqb c percent) pre = true ->
         forallb (fun c => Ascii.eqb c percent) post = true ->
         valid_numeral ip fp ->
         remove_char comma body = numeral_text s ip fp ->
         representable (numeral_value s ip fp / 100) ->
         exists v,
           parse_float (pre ++ body ++ post) = (Return (Some v), [])
           /\ (value v == numeral_value s ip fp / 100)%Q)
  /\ (parse_float (lit "12.5%") = (Return (Some (Finite false 125 (-3))), [])
      /\ parse_float (lit "12.5") = (Return (Some (Finite false 125 (-3))), [])
      /\ (value (Finite false 125 (-3)) == 125 # 1000)%Q).
Proof.
  split; [|split; [|split]].
  - intros text e E. unfold parse_float. rewrite E. cbn [bind].
    apply of_string_raises in E. subst e. reflexivity.
  - exact parse_float_divides.
  - intros pre body post s ip fp H1 H2 V E R.
    pose proof (ratio_text_cleaned pre body post s ip fp H1 H2 V E) as C.
    pose proof (of_string_numeral_text s ip fp V) as P. rewrite <- C in P.
    destruct (parse_float_divides _ _ P eq_refl) as (v & Ev & _ & Vv).
    { now rewrite numeral_decimal_value. }
    exists v. split; [exact Ev|]. now rewrite Vv, numeral_decimal_value.
  - repeat split; vm_compute; reflexivity.
Qed.

Lemma parse_float_divides_by_100_witness :
  exists v,
    parse_float (lit "%" ++ lit "1,250.5" ++ lit "%%")
    = (Return (Some v), [])
    /\ (value v
        == numeral_value None (lit "1250") (Some (lit "5")) / 100)%Q.
Proof.
  refine (proj1 (proj2 (proj2 parse_float_divides_by_100))
            (lit "%") (lit "1,250.5") (lit "%%")
            None (lit "1250") (Some (lit "5")) eq_refl eq_refl _ _ _).
  - repeat split. discriminate.
  - vm_compute. reflexivity.
  - exists (Finite false 12505 (-3)).
    split; [vm_compute; intuition discriminate|vm_compute; reflexivity].
Defined.


(** ** Further properties of the engine *)

(** X1: a finite value returned by [calculate_intrinsic_value] is held by
    the decimal context: at most 28 digits, exponent not below Etiny,
    adjusted exponent not above Emax; whatever the arguments were. *)
Theorem engine_result_within_context
  (eps g y : option Decimal) (v : Decimal) (l : list log_entry) :
  calculate_intrinsic_value eps g y = (Return (Some v), l) ->
  is_finite v = true ->
  fits v /\ l = [].
Proof.
  intros H F. split; [now apply engine_value_fits with eps g y l|].
  revert H. unfold calculate_intrinsic_value.
  destruct (_ <- le_zero eps ;; _)%py as [[|]|]; try discriminate.
  destruct eps, g, y; try discriminate. now intros [= _ <-].
Qed.

Lemma engine_result_within_context_witness :
  fits (Finite false 1173333333333333333333333333 (-26))
  /\ @nil log_entry = [].
Proof.
  apply (engine_result_within_context
           (Some (Finite false 1 0)) (Some (Finite false 1 (-2)))
           (Some (Finite false 3 0))).
  - vm_compute. reflexivity.
  - reflexivity.
Defined.

(** X2: the "missing data" branch of [calculate_intrinsic_value] is taken
    exactly when eps and g are present and pass the guard while y is
    [None]; a missing eps, or a missing g behind an eps above zero, makes
    the comparison raise [TypeError] before the check for [None] is
    reached. *)
Theorem missing_data_branch :
  (forall eps g y,
      snd (calculate_intrinsic_value eps g y) = [(ERROR, MissingData)]
      <-> exists e g',
          eps = Some e /\ g = Some g' /\ y = None
          /\ le e zero = Return false /\ le g' zero = Return false)
  /\ (forall g y, calculate_intrinsic_value None g y = (Raise TypeError, []))
  /\ (forall e y,
         le e zero = Return false ->
         calculate_intrinsic_value (Some e) None y = (Raise TypeError, [])).
Proof.
  split; [|split].
  - intros eps g y. unfold calculate_intrinsic_value. split.
    + destruct eps as [e|]; cbn [le_zero bind]; [|discriminate].
      destruct (le e zero) as [[|]|] eqn:Ee; cbn [bind snd]; try discriminate.
      destruct g as [g'|]; cbn [le_zero]; [|discriminate].
      destruct (le g' zero) as [[|]|] eqn:Eg; cbn [snd]; try discriminate.
      destruct y as [y|]; cbn [snd]; [discriminate|].
      intros _. exists e, g'. auto.
    + intros (e & g' & -> & -> & -> & Ee & Eg). cbn [le_zero].
      rewrite Ee. cbn [bind]. rewrite Eg. reflexivity.
  - reflexivity.
  - intros e y Ee. unfold calculate_intrinsic_value. cbn [le_zero].
    rewrite Ee. reflexivity.
Qed.

Lemma missing_data_branch_witness :
  calculate_intrinsic_value (Some (Finite false 2 0)) None (Some zero)
  = (Raise TypeError, []).
Proof.
  apply (proj2 (proj2 missing_data_branch) (Finite false 2 0) (Some zero)).
  vm_compute. reflexivity.
Defined.


(** ** When a division overflows *)
Module OverflowFacts.

(** Below Emax there is room for the carry of a rounding: [_fix] returns. *)
Lemma fix_returns_below_Emax s c e :
  c = 0%N \/ adjusted c e < Emax ->
  exists d, _fix (Finite s c e) = Return d /\ is_finite d = true.
Proof.
  intros H. cbn [_fix]. destruct (N.eqb_spec c 0) as [|Hc]; [eauto|].
  destruct H as [H|H]; [contradiction|].
  destruct (Z.ltb_spec Etop (ndigits c + e - prec)) as [Ho|Ho]; [ctx; lia|].
  destruct (_ <? _); [|eauto].
  destruct (_ <? _); [|eauto].
  destruct (Z.ltb_spec Etop (Z.max (ndigits c + e - prec) Etiny + 1))
    as [Ht|Ht]; [ctx; lia|eauto].
Qed.

Lemma pow10_28_split k : 0 <= k -> pow10 (k + 1) = (5 * (2 * pow10 k))%N.
Proof. intros H. rewrite pow10_succ by assumption. lia. Qed.

(** The quotient digits [__truediv__] computes before rounding: at least
    one and at most prec + 2 of them. *)
Lemma quotient_digits c1 c2 :
  c1 <> 0%N -> c2 <> 0%N ->
  let shift := ndigits c2 - ndigits c1 + prec + 1 in
  let num := if 0 <=? shift then (c1 * pow10 shift)%N else c1 in
  let den := if 0 <=? shift then c2 else (c2 * pow10 (- shift))%N in
  (1 <= num / den /\ num / den < pow10 (prec + 2))%N /\ den <> 0%N.
Proof.
  intros H1 H2 shift num den.
  destruct (ndigits_bounds c1 H1) as [L1 U1].
  destruct (ndigits_bounds c2 H2) as [L2 U2].
  pose proof (ndigits_pos c1) as P1. pose proof (ndigits_pos c2) as P2.
  assert (Hp : 0 <= prec) by (ctx; lia).
  unfold num, den. destruct (Z.leb_spec 0 shift) as [Hs|Hs].
  - pose proof (pow10_pos shift) as Ps.
    assert (Hup : (c1 * pow10 shift < c2 * pow10 (prec + 2))%N).
    { apply N.lt_le_trans with (pow10 (ndigits c1) * pow10 shift)%N; [nia|].
      apply N.le_trans with (pow10 (ndigits c2 - 1) * pow10 (prec + 2))%N.
      - rewrite <- !pow10_add by lia. apply pow10_le. unfold shift. lia.
      - pose proof (pow10_pos (prec + 2)). nia. }
    assert (Hlo : (c2 <= c1 * pow10 shift)%N).
    { apply N.le_trans with (pow10 (ndigits c2)); [lia|].
      apply N.le_trans with (pow10 (ndigits c1 - 1) * pow10 shift)%N; [|nia].
      rewrite <- pow10_add by lia. apply pow10_le. unfold shift. lia. }
    split; [split|assumption].
    + apply N.div_le_lower_bound; lia.
    + apply N.Div0.div_lt_upper_bound. lia.
  - pose proof (pow10_pos (- shift)) as Ps.
    assert (Hup : (c1 < c2 * pow10 (- shift) * pow10 (prec + 2))%N).
    { apply N.lt_le_trans with (pow10 (ndigits c1)); [assumption|].
      apply N.le_trans
        with (pow10 (ndigits c2 - 1) * pow10 (- shift) * pow10 (prec + 2))%N.
      - rewrite <- !pow10_add by lia. apply pow10_le. unfold shift. lia.
      - pose proof (pow10_pos (prec + 2)). nia. }
    assert (Hlo : (c2 * pow10 (- shift) <= c1)%N).
    { apply N.le_trans with (pow10 (ndigits c2) * pow10 (- shift))%N; [nia|].
      apply N.le_trans with (pow10 (ndigits c1 - 1)); [|assumption].
      rewrite <- pow10_add by lia. apply pow10_le. unfold shift. lia. }
    split; [split|lia].
    + apply N.div_le_lower_bound; lia.
    + apply N.Div0.div_lt_upper_bound. lia.
Qed.

(** A quotient of non-zero finite values is the rounding of a coefficient
    whose adjusted exponent is at most the difference of the operands'. *)
Lemma div_adjusted s1 c1 e1 s2 c2 e2 :
  c1 <> 0%N -> c2 <> 0%N ->
  exists coeff exp,
    div (Finite s1 c1 e1) (Finite s2 c2 e2)
    = _fix (Finite (xorb s1 s2) coeff exp)
    /\ coeff <> 0%N
    /\ adjusted coeff exp <= adjusted c1 e1 - adjusted c2 e2.
Proof.
  intros H1 H2.
  destruct (quotient_digits c1 c2 H1 H2) as [[Qlo Qhi] Hden].
  cbv zeta in Qlo, Qhi, Hden.
  cbn [div _check_nans].
  destruct (N.eqb_spec c2 0) as [|_]; [contradiction|].
  destruct (N.eqb_spec c1 0) as [|_]; [contradiction|].
  cbv zeta.
  set (shift := ndigits c2 - ndigits c1 + prec + 1) in *.
  set (num := if 0 <=? shift then (c1 * pow10 shift)%N else c1) in *.
  set (den := if 0 <=? shift then c2 else (c2 * pow10 (- shift))%N) in *.
  set (q := (num / den)%N) in *.
  assert (Hq : ndigits q <= prec + 2).
  { apply ndigits_le; [ctx; lia|assumption]. }
  assert (Hbound : forall c' e',
             c' <> 0%N -> ndigits c' + e' <= prec + 2 + (e1 - e2 - shift) ->
             adjusted c' e' <= adjusted c1 e1 - adjusted c2 e2).
  { intros c' e' _ Hn. unfold adjusted, shift in *. lia. }
  destruct (num mod den =? 0)%N.
  - destruct (strip_zeros _ q _) as [c' e'] eqn:Es.
    apply strip_zeros_spec in Es. destruct Es as [Hle Ec].
    assert (Hc' : c' <> 0%N) by (intros ->; lia).
    exists c', e'. split; [reflexivity|]. split; [assumption|].
    apply Hbound; [assumption|].
    rewrite Ec, ndigits_mul_pow10 in Hq by (assumption || lia). lia.
  - set (q' := if (q mod 5 =? 0)%N then (q + 1)%N else q).
    assert (Hq' : (q' <> 0 /\ q' < pow10 (prec + 2))%N).
    { unfold q'. destruct (N.eqb_spec (q mod 5) 0) as [Hm|Hm]; [|lia].
      split; [lia|].
      assert (E : pow10 (prec + 2) = (5 * (2 * pow10 (prec + 1)))%N).
      { replace (prec + 2) with (prec + 1 + 1) by lia.
        apply pow10_28_split. ctx. lia. }
      rewrite E in *. pose proof (N.div_mod q 5 ltac:(lia)). lia. }
    exists q', (e1 - e2 - shift). split; [reflexivity|].
    split; [apply Hq'|]. apply Hbound; [apply Hq'|].
    assert (ndigits q' <= prec + 2) by (apply ndigits_le; [ctx; lia|apply Hq']).
    lia.
Qed.

End OverflowFacts.

Import OverflowFacts.

(** Dividing by 100: what can go wrong. *)
Lemma div_one_hundred_cases d :
  (exists v, div d one_hundred = Return v)
  \/ div d one_hundred = Raise InvalidOperation
  \/ (div d one_hundred = Raise Overflow
      /\ exists s c x, d = Finite s c x /\ c <> 0%N
                       /\ Emax + 2 <= adjusted c x).
Proof.
  destruct d as [s c x|s|[|] s p].
  - destruct (N.eq_dec c 0) as [->|Hc].
    + left. cbn [div _check_nans one_hundred of_Z].
      change (Z.abs_N 100 =? 0)%N with false. cbn [N.eqb]. cbv iota.
      destruct (fix_returns_below_Emax (xorb s (100 <? 0)) 0 (x - 0)
                  (or_introl eq_refl)) as (v & E & _).
      eauto.
    + destruct (div_adjusted s c x false 100 0 Hc ltac:(discriminate))
        as (coeff & exp & E & Hn & Ha).
      change (Finite false 100 0) with one_hundred in E. rewrite E.
      assert (A100 : adjusted 100 0 = 2) by (vm_compute; reflexivity).
      rewrite A100 in Ha.
      destruct (Z_lt_le_dec (adjusted coeff exp) Emax) as [Hlt|Hge].
      * left. destruct (fix_returns_below_Emax (xorb s false) coeff exp
                          (or_intror Hlt)) as (v & Ev & _). eauto.
      * destruct (fix_cases (xorb s false) coeff exp)
          as [(c' & e' & Ev)|Ev]; rewrite Ev; [left; eauto|].
        right. right. split; [reflexivity|].
        exists s, c, x. repeat split; try assumption. lia.
  - left. cbn. eauto.
  - right. left. reflexivity.
  - left. cbn. eauto.
Qed.

(** X3: the one exception [parse_float] lets escape is [decimal.Overflow],
    which its [except] clause does not name: it is raised, with nothing
    logged, only for a text that reads as a non-zero finite numeral whose
    adjusted exponent is at least Emax + 2 (such as "1e1000002"); on every
    other text the function returns. *)
Theorem parse_float_raises_only_on_overflow :
  (forall (text : str) (e : exn) (l : list log_entry),
      parse_float text = (Raise e, l) ->
      e = Overflow /\ l = []
      /\ exists s c x,
          of_string (strip_percent (remove_char comma text))
          = Return (Finite s c x)
          /\ c <> 0%N /\ Emax + 2 <= adjusted c x)
  /\ parse_float (lit "1e1000002") = (Raise Overflow, []).
Proof.
  split; [|vm_compute; reflexivity].
  intros text e l. unfold parse_float.
  destruct (of_string _) as [d|e0] eqn:E; cbn [bind].
  - destruct (div_one_hundred_cases d) as [(v & Ev)|[Ev|(Ev & s & c & x & -> & Hc & Ha)]];
      rewrite Ev; cbn [caught_by_parser is_ValueError orb]; try discriminate.
    intros [= <- <-]. repeat split. exists s, c, x. auto.
  - apply of_string_raises in E. subst e0. discriminate.
Qed.

Lemma parse_float_raises_only_on_overflow_witness :
  Overflow = Overflow /\ @nil log_entry = []
  /\ exists s c x,
      of_string (strip_percent (remove_char comma (lit "9,9e1000001%")))
      = Return (Finite s c x)
      /\ c <> 0%N /\ Emax + 2 <= adjusted c x.
Proof.
  apply (proj1 parse_float_raises_only_on_overflow (lit "9,9e1000001%")).
  vm_compute. reflexivity.
Defined.


(** ** The report of the orchestrator *)

Lemma ticker_loop_flagged (W Page : Type) (env : Env W Page) tickers :
  forall worth_buying st,
    snd (fst (ticker_loop env tickers worth_buying st))
    = worth_buying
      ++ flagged (fst (fst (ticker_loop env tickers worth_buying st))).
Proof.
  induction tickers as [|t rest IH]; intros wb st.
  - cbn. now rewrite app_nil_r.
  - cbn [ticker_loop].
    destruct (process_ticker env t st) as [r st1].
    specialize (IH (if buys r then wb ++ [t] else wb) st1).
    destruct (ticker_loop env rest _ st1) as [[results wb'] st2].
    cbn [fst snd] in *. rewrite IH. unfold flagged. cbn [filter snd].
    destruct (buys r); cbn [map fst]; [now rewrite <- app_assoc|reflexivity].
Qed.

(** X4: the loop of [main] adds to [worth_buying] exactly the tickers whose
    iteration ended with a result flagged worth buying, in the order of the
    ticker list, and it keeps what the list held before. *)
Theorem worth_buying_collects_flagged :
  forall (W Page : Type) (env : Env W Page) (tickers worth_buying : list str)
         (st : state W),
    snd (fst (ticker_loop env tickers worth_buying st))
    = worth_buying
      ++ flagged (fst (fst (ticker_loop env tickers worth_buying st)))
    /\ map fst (fst (fst (ticker_loop env tickers worth_buying st)))
       = tickers.
Proof.
  intros. split; [apply ticker_loop_flagged|apply ticker_loop_covers].
Qed.

Lemma main_unfold_items (W Page : Type) (env : Env W Page) st text items :
  file_content env (lit "tickers.json") = Some text ->
  json_load env text = Return (JItems items) ->
  main env st
  = let run := ticker_loop env items [] (loop_entry st (List.length items)) in
    (Return tt,
     {| world := world (snd run); log := log (snd run);
        out := out (snd run) ++ summary (snd (fst run)) |}).
Proof.
  intros Hf Hj.
  unfold main, try_except, mbind, print, lift_logged, logging, ret,
    lift_outcome, read_tickers_from_json, print_all.
  rewrite Hf, Hj. cbn [fst snd sized world log out].
  rewrite app_nil_r, <- app_assoc. cbn [app]. unfold loop_entry.
  destruct (ticker_loop env items [] _) as [[results wb] st']. reflexivity.
Qed.

(** X5: when the ticker file holds a list, [main] runs the loop over it and
    ends its output with the summary of the tickers flagged, in list order:
    the header and one line per flagged ticker, or the none-found message
    when no ticker was flagged; it returns normally.  For the empty list
    this is the banner, the message and the log entry "Processing 0
    tickers". *)
Theorem main_reports_flagged_tickers :
  forall (W Page : Type) (env : Env W Page) (st : state W) (text : str)
         (items : list str),
    file_content env (lit "tickers.json") = Some text ->
    json_load env text = Return (JItems items) ->
    (exists results st',
        ticker_loop env items [] (loop_entry st (List.length items))
        = (results, flagged results, st')
        /\ map fst results = items
        /\ main env st
           = (Return tt,
              {| world := world st'; log := log st';
                 out := out st' ++ summary (flagged results) |}))
    /\ (items = [] ->
        main env st
        = (Return tt,
           {| world := world st;
              log := log st ++ [(INFO, ProcessingCount 0)];
              out := out st ++ [ClearScreen; Banner; NoneFound] |})).
Proof.
  intros W Page env st text items Hf Hj.
  rewrite (main_unfold_items W Page env st text items Hf Hj). split.
  - pose proof (ticker_loop_flagged W Page env items []
                  (loop_entry st (List.length items))) as Hw.
    pose proof (ticker_loop_covers W Page env items []
                  (loop_entry st (List.length items))) as Hc.
    destruct (ticker_loop env items [] _) as [[results wb] st'].
    cbn [fst snd app] in *. subst wb.
    exists results, st'. auto.
  - intros ->. cbn. now rewrite <- app_assoc.
Qed.

Lemma main_reports_flagged_tickers_witness :
  (exists results st',
      ticker_loop sample_env [lit "AAPL"] [] (loop_entry (start tt) 1)
      = (results, flagged results, st')
      /\ map fst results = [lit "AAPL"]
      /\ main sample_env (start tt)
         = (Return tt,
            {| world := world st'; log := log st';
               out := out st' ++ summary (flagged results) |}))
  /\ ([lit "AAPL"] = [] ->
      main sample_env (start tt)
      = (Return tt,
         {| world := world (start tt);
            log := log (start tt) ++ [(INFO, ProcessingCount 0)];
            out := out (start tt) ++ [ClearScreen; Banner; NoneFound] |})).
Proof.
  apply (main_reports_flagged_tickers unit str sample_env (start tt)
           (lit "[ticker]") [lit "AAPL"]).
  - reflexivity.
  - vm_compute. reflexivity.
Defined.




(** ** Log and output are append-only *)

Module Frame.

Section Growth.
Variable W : Type.

Lemma extends_refl (st : state W) : extends st st.
Proof. split; exists []; now rewrite app_nil_r. Qed.

Lemma extends_trans (a b c : state W) :
  extends a b -> extends b c -> extends a c.
Proof.
  intros [[l1 H1] [o1 G1]] [[l2 H2] [o2 G2]]. split.
  - exists (l1 ++ l2). now rewrite H2, H1, app_assoc.
  - exists (o1 ++ o2). now rewrite G2, G1, app_assoc.
Qed.

Lemma extends_log (st : state W) w l :
  extends st {| world := w; log := log st ++ l; out := out st |}.
Proof. split; cbn; [now exists l|exists []; now rewrite app_nil_r]. Qed.

Lemma extends_out (st : state W) w o :
  extends st {| world := w; log := log st; out := out st ++ o |}.
Proof. split; cbn; [exists []; now rewrite app_nil_r|now exists o]. Qed.

Lemma extends_world (st : state W) w :
  extends st {| world := w; log := log st; out := out st |}.
Proof. split; cbn; exists []; now rewrite app_nil_r. Qed.

Lemma grows_ret A (a : A) : grows (@ret W A a).
Proof. intros st. apply extends_refl. Qed.

Lemma grows_logging l m : grows (@logging W l m).
Proof. intros st. apply extends_log. Qed.

Lemma grows_print o : grows (@print W o).
Proof. intros st. apply extends_out. Qed.

Lemma grows_print_all os : grows (@print_all W os).
Proof. intros st. apply extends_out. Qed.

Lemma grows_lift_logged A (c : logged A) : grows (@lift_logged W A c).
Proof. intros st. apply extends_log. Qed.

Lemma grows_lift_outcome A (c : outcome A) : grows (@lift_outcome W A c).
Proof. intros st. apply extends_refl. Qed.

Lemma grows_mbind A B (m : M W A) (k : A -> M W B) :
  grows m -> (forall a, grows (k a)) -> grows (mbind m k).
Proof.
  intros Hm Hk st. unfold mbind. specialize (Hm st).
  destruct (m st) as [[a|e] st1]; cbn [snd] in *; [|exact Hm].
  exact (extends_trans _ _ _ Hm (Hk a st1)).
Qed.

Lemma grows_try_except A (body : M W A) (handler : exn -> M W A) :
  grows body -> (forall e, grows (handler e)) ->
  grows (try_except body handler).
Proof.
  intros Hm Hk st. unfold try_except. specialize (Hm st).
  destruct (body st) as [[a|e] st1]; cbn [snd] in *; [exact Hm|].
  exact (extends_trans _ _ _ Hm (Hk e st1)).
Qed.

End Growth.

Ltac grow :=
  repeat first
    [ apply grows_ret | apply grows_logging | apply grows_print
    | apply grows_print_all | apply grows_lift_logged
    | apply grows_lift_outcome
    | apply grows_mbind; [|intros ?]
    | match goal with
      | |- grows (match ?x with _ => _ end) => destruct x
      end ].

Section Calls.
Variables W Page : Type.
Variable env : Env W Page.

Lemma grows_safe_request url : grows (safe_request env url).
Proof.
  intros st. unfold safe_request.
  destruct (http_get env url (world st)) as [[page|] w]; cbn [snd];
    [apply extends_world|apply extends_log].
Qed.

Lemma grows_get_stock_price url selector :
  grows (get_stock_price env url selector).
Proof. unfold get_stock_price. grow. apply grows_safe_request. Qed.

Lemma grows_get_financial_data url selector :
  grows (get_financial_data env url selector).
Proof. unfold get_financial_data. grow. apply grows_safe_request. Qed.

Lemma grows_ticker_body ticker : grows (ticker_body env ticker).
Proof.
  unfold ticker_body.
  repeat first
    [ apply grows_safe_request | progress grow ].
Qed.

Lemma process_ticker_extends ticker st :
  extends st (snd (process_ticker env ticker st)).
Proof.
  unfold process_ticker. pose proof (grows_ticker_body ticker st) as H.
  destruct (ticker_body env ticker st) as [[r|e] st1]; cbn [snd] in *;
    [exact H|].
  exact (extends_trans _ _ _ _ H (extends_log _ _ _ _)).
Qed.

Lemma ticker_loop_extends tickers :
  forall worth_buying st,
    extends st (snd (ticker_loop env tickers worth_buying st)).
Proof.
  induction tickers as [|t rest IH]; intros wb st.
  - apply extends_refl.
  - cbn [ticker_loop].
    pose proof (process_ticker_extends t st) as H.
    destruct (process_ticker env t st) as [r st1].
    specialize (IH (if buys r then wb ++ [t] else wb) st1).
    destruct (ticker_loop env rest _ st1) as [[results wb'] st2].
    cbn [snd] in *. exact (extends_trans _ _ _ _ H IH).
Qed.

Lemma grows_main_tail items :
  grows (fun st : state W =>
           let '(_, worth_buying, st') := ticker_loop env items [] st in
           print_all (summary worth_buying) st').
Proof.
  intros st. pose proof (ticker_loop_extends items [] st) as H.
  destruct (ticker_loop env items [] st) as [[results wb] st1].
  cbn [snd] in *.
  exact (extends_trans _ _ _ _ H (grows_print_all _ _ st1)).
Qed.

Lemma grows_main : grows (main env).
Proof.
  unfold main. apply grows_try_except; [|intros e; apply grows_logging].
  repeat first [ apply grows_main_tail | progress grow ].
Qed.

Lemma main_returns st : fst (main env st) = Return tt.
Proof.
  unfold main, try_except.
  match goal with |- context [match ?b st with _ => _ end] =>
    destruct (b st) as [[[]|e] st1] end; reflexivity.
Qed.

Lemma main_banner st :
  exists o, out (snd (main env st)) = out st ++ ClearScreen :: Banner :: o.
Proof.
  unfold main, try_except.
  set (rest := fun tickers : option json_doc => _).
  unfold mbind at 1 2 3, print at 1 2. cbn [fst snd world log out].
  set (st2 := {| world := world st; log := log st;
                 out := (out st ++ [ClearScreen]) ++ [Banner] |}).
  assert (G : grows (mbind
                 (lift_logged (read_tickers_from_json env (lit "tickers.json")))
                 rest)).
  { subst rest. repeat first [ apply grows_main_tail | progress grow ]. }
  change (match lift_logged _ st2 with
          | (Return a, st') => rest a st'
          | (Raise e, st') => (Raise e, st')
          end)
    with (mbind (lift_logged (read_tickers_from_json env (lit "tickers.json")))
            rest st2).
  specialize (G st2).
  destruct (mbind _ rest st2) as [[[]|e] st3]; cbn [snd] in *.
  - destruct G as [_ [o Ho]]. exists o. rewrite Ho. subst st2. cbn [out].
    now rewrite <- !app_assoc.
  - destruct G as [_ [o Ho]]. exists o. cbn. rewrite Ho. subst st2. cbn [out].
    now rewrite <- !app_assoc.
Qed.

End Calls.

End Frame.

(** X7: [main] never raises, whatever the network and the ticker file do:
    every exception of an iteration is caught by the handler of the loop
    body, every other one by the outer handler, and neither handler raises.
    The run only appends to the log and to the output, and the output it
    adds starts with the cleared screen and the banner. *)
Theorem main_never_raises :
  forall (W Page : Type) (env : Env W Page) (st : state W),
    fst (main env st) = Return tt
    /\ extends st (snd (main env st))
    /\ exists o,
        out (snd (main env st)) = out st ++ ClearScreen :: Banner :: o.
Proof.
  intros W Page env st. split; [apply Frame.main_returns|].
  split; [apply Frame.grows_main|apply Frame.main_banner].
Qed.


(** ** The sign of the intrinsic value and the margin of safety *)

Module VerdictFacts.

(** Rounding keeps the sign. *)
Lemma fix_sign s c e d :
  _fix (Finite s c e) = Return d -> exists c' e', d = Finite s c' e'.
Proof.
  intros H. destruct (fix_cases s c e) as [(c' & e' & E)|E];
    rewrite E in H; [|discriminate].
  injection H as <-. eauto.
Qed.

Lemma mul_sign s1 c1 e1 s2 c2 e2 d :
  mul (Finite s1 c1 e1) (Finite s2 c2 e2) = Return d ->
  exists c e, d = Finite (xorb s1 s2) c e.
Proof. cbn [mul _check_nans]. apply fix_sign. Qed.

(** The sum of two values that are not negative is not negative. *)
Lemma add_sign_pos c1 e1 c2 e2 d :
  add (Finite false c1 e1) (Finite false c2 e2) = Return d ->
  exists c e, d = Finite false c e.
Proof.
  cbn [add _check_nans]. cbv zeta. unfold signed.
  set (z := Z.of_N _ + Z.of_N _).
  assert (Hz : 0 <= z) by (subst z; lia).
  destruct (Z.eqb_spec z 0) as [_|_]; cbn [andb]; [apply fix_sign|].
  destruct (Z.ltb_spec z 0) as [Hn|_]; [lia|apply fix_sign].
Qed.

(** A quotient that is returned has the sign of the signs' product, and
    its divisor is not zero. *)
Lemma div_sign s1 c1 e1 s2 c2 e2 d :
  div (Finite s1 c1 e1) (Finite s2 c2 e2) = Return d ->
  c2 <> 0%N /\ exists c e, d = Finite (xorb s1 s2) c e.
Proof.
  unfold div. cbn [_check_nans].
  destruct (N.eqb_spec c2 0) as [_|Hc2];
    [destruct (c1 =? 0)%N; intros H; discriminate H|].
  intros H. split; [exact Hc2|]. revert H.
  destruct (c1 =? 0)%N; [apply fix_sign|]. cbv zeta.
  match goal with |- context [if ?b then _ else _] => destruct b end;
    [|apply fix_sign].
  match goal with |- context [let (_, _) := ?p in _] => destruct p end.
  apply fix_sign.
Qed.

(** What passes the guard [x <= 0] of the engine, if finite, is positive. *)
Lemma passes_guard_positive s c e :
  le (Finite s c e) zero = Return false -> s = false /\ c <> 0%N.
Proof.
  rewrite le_finite by reflexivity.
  destruct (value (Finite s c e) ?= value zero)%Q eqn:E; try discriminate.
  intros _. rewrite <- Qgt_alt in E. rewrite value_zero_const in E.
  rewrite value_mag in E. split.
  - destruct s; [|reflexivity]. exfalso.
    assert (0 <= mag c e)%Q
      by (apply Qmult_le_0_compat; [apply qN_nonneg|apply Qlt_le_weak, q10_pos]).
    unfold qsign in E.
    assert (-1 * mag c e <= 0)%Q.
    { setoid_replace (-1 * mag c e)%Q with (- mag c e)%Q by ring.
      now apply (Qopp_le_compat 0). }
    exact (Qlt_not_le _ _ E H0).
  - intros ->. unfold mag, qN in E. cbn in E.
    rewrite Qmult_0_l, Qmult_0_r in E. discriminate E.
Qed.

(** The intrinsic value of finite inputs is finite and has the sign of the
    yield, which is not zero. *)
Lemma graham_sign ce ee cg eg sy cy ey v :
  graham_formula (Finite false ce ee) (Finite false cg eg) (Finite sy cy ey)
  = Return v ->
  cy <> 0%N /\ exists c e, v = Finite sy c e.
Proof.
  unfold graham_formula, one_hundred, seven, four_point_four, of_Z.
  destruct (mul (Finite false cg eg) _) as [a|] eqn:Ea; cbn [bind];
    [|discriminate].
  apply mul_sign in Ea. destruct Ea as (ca & ea & ->).
  cbn [xorb Z.ltb Z.compare].
  destruct (add _ (Finite false ca ea)) as [b|] eqn:Eb; cbn [bind];
    [|discriminate].
  apply add_sign_pos in Eb. destruct Eb as (cb & eb & ->).
  destruct (mul (Finite false ce ee) _) as [c|] eqn:Ec; cbn [bind];
    [|discriminate].
  apply mul_sign in Ec. destruct Ec as (cc & ec & ->). cbn [xorb].
  destruct (mul (Finite false cc ec) _) as [d|] eqn:Ed; cbn [bind];
    [|discriminate].
  apply mul_sign in Ed. destruct Ed as (cd & ed & ->). cbn [xorb].
  intros H. apply div_sign in H. exact H.
Qed.

Lemma mag_nonneg c e : (0 <= mag c e)%Q.
Proof.
  apply Qmult_le_0_compat; [apply qN_nonneg|apply Qlt_le_weak, q10_pos].
Qed.

Lemma mag_le_same_exp c1 c2 e : (c1 <= c2)%N -> (mag c1 e <= mag c2 e)%Q.
Proof.
  intros H. unfold mag. apply Qmult_le_compat_r; [now apply qN_le|].
  apply Qlt_le_weak, q10_pos.
Qed.

(** The margin of a value held by the context: same sign, and a magnitude
    that is not above the value's. *)
Lemma margin_shape s c e :
  fits (Finite s c e) ->
  exists c' e',
    mul (Finite s c e) point_eight = Return (Finite s c' e')
    /\ (mag c' e' <= mag c e)%Q.
Proof.
  intros (Hn & Ht & Ha). cbn [mul _check_nans point_eight].
  rewrite xorb_false_r. cbn [_fix].
  destruct (N.eqb_spec (c * 8) 0) as [_|Hc].
  { do 2 eexists. split; [reflexivity|].
    unfold mag at 1, qN. cbn. rewrite Qmult_0_l. apply mag_nonneg. }
  assert (Hc' : c <> 0%N) by lia.
  pose proof (ndigits_mul c 8 Hc' ltac:(discriminate)) as [_ Hd].
  assert (D8 : ndigits 8 = 1) by (vm_compute; reflexivity).
  rewrite D8 in Hd.
  destruct (Z.ltb_spec Etop (ndigits (c * 8) + (e + -1) - prec)) as [Ho|_];
    [ctx; lia|].
  set (exp_min := Z.max (ndigits (c * 8) + (e + -1) - prec) Etiny).
  destruct (Z.ltb_spec (e + -1) exp_min) as [Hr|_].
  2: { do 2 eexists. split; [reflexivity|].
       rewrite Qle_alt, <- compare_padded.
       replace (e + -1 - e) with (-1) by lia.
       replace (e - (e + -1)) with 1 by lia.
       rewrite (pow10_nonpos (-1)) by lia.
       assert (P1 : pow10 1 = 10%N) by (vm_compute; reflexivity).
       rewrite P1, N.compare_gt_iff. lia. }
  assert (Hk : exp_min - (e + -1) = 1) by (subst exp_min; ctx; lia).
  assert (He : exp_min = e) by lia.
  rewrite Hk. clear Hr. rewrite He. clear Hk He exp_min.
  assert (P1 : pow10 1 = 10%N) by (vm_compute; reflexivity).
  pose proof (round_half_even_le (c * 8) 1) as Hb. rewrite P1 in Hb.
  assert (Hq : (c * 8 / 10 < c)%N)
    by (apply N.Div0.div_lt_upper_bound; lia).
  assert (Hle : (round_half_even (c * 8) 1 <= c)%N) by lia.
  assert (Hsmall : ndigits (round_half_even (c * 8) 1) <= prec).
  { apply ndigits_le; [ctx; lia|].
    apply (proj1 (ndigits_le c prec ltac:(ctx; lia))) in Hn. lia. }
  destruct (Z.ltb_spec prec (ndigits (round_half_even (c * 8) 1)))
    as [Hbig|_]; [lia|].
  do 2 eexists. split; [reflexivity|]. now apply mag_le_same_exp.
Qed.

Lemma value_pos_sign s c e :
  c <> 0%N -> ((0 < value (Finite s c e))%Q <-> s = false).
Proof.
  intros Hc. rewrite value_mag. pose proof (mag_pos c e Hc) as Hm.
  destruct s; unfold qsign; split; intros H; try reflexivity;
    try discriminate.
  - exfalso. setoid_replace (-1 * mag c e)%Q with (- mag c e)%Q in H by ring.
    apply (Qopp_lt_compat 0) in Hm. exact (Qlt_irrefl _ (Qlt_trans _ _ _ H Hm)).
  - now rewrite Qmult_1_l.
Qed.

Lemma value_neg_sign s c e :
  c <> 0%N -> ((value (Finite s c e) < 0)%Q <-> s = true).
Proof.
  intros Hc. rewrite value_mag. pose proof (mag_pos c e Hc) as Hm.
  destruct s; unfold qsign; split; intros H; try reflexivity;
    try discriminate.
  - setoid_replace (-1 * mag c e)%Q with (- mag c e)%Q by ring.
    now apply (Qopp_lt_compat 0).
  - exfalso. rewrite Qmult_1_l in H.
    exact (Qlt_irrefl _ (Qlt_trans _ _ _ H Hm)).
Qed.

End VerdictFacts.

(** X9: for finite inputs and a finite price that is not negative, a value
    returned by the engine always gets a verdict (the margin never
    overflows); the margin [value * Decimal('0.8')] lies between 0 and the
    value, on the side of the yield's sign; and the ticker is flagged worth
    buying only if the yield is positive and the price is strictly below
    the intrinsic value itself. *)
Theorem buy_only_below_intrinsic_value :
  forall (p eps g y v : Decimal) (l : list log_entry),
    is_finite p = true -> (0 <= value p)%Q ->
    is_finite eps = true -> is_finite g = true -> is_finite y = true ->
    calculate_intrinsic_value (Some eps) (Some g) (Some y)
    = (Return (Some v), l) ->
    exists r,
      evaluate p v = Return r
      /\ ((0 < value y)%Q ->
          (0 <= value (margin_of_safety_value r))%Q
          /\ (value (margin_of_safety_value r) <= value v)%Q)
      /\ ((value y < 0)%Q ->
          (value v <= value (margin_of_safety_value r))%Q
          /\ (value (margin_of_safety_value r) <= 0)%Q)
      /\ (is_worth_buying r = true ->
          (0 < value y)%Q /\ (value p < value v)%Q).
Proof.
  intros p eps g y v l Fp Pp Fe Fg Fy H.
  destruct eps as [se ce ee| |]; try discriminate Fe.
  destruct g as [sg cg eg| |]; try discriminate Fg.
  destruct y as [sy cy ey| |]; try discriminate Fy.
  assert (Hfit : is_finite v = true -> fits v)
    by (apply (engine_value_fits _ _ _ _ _ H)).
  revert H. unfold calculate_intrinsic_value. cbn [le_zero].
  destruct (le (Finite se ce ee) zero) as [[|]|] eqn:Ee; cbn [bind];
    try discriminate.
  destruct (le (Finite sg cg eg) zero) as [[|]|] eqn:Eg; try discriminate.
  apply VerdictFacts.passes_guard_positive in Ee, Eg.
  destruct Ee as [-> _], Eg as [-> _].
  destruct (graham_formula _ _ _) as [v0|] eqn:Ev; cbn [bind];
    [|discriminate].
  intros [= <- <-].
  apply VerdictFacts.graham_sign in Ev.
  destruct Ev as (Hcy & c & e & ->).
  specialize (Hfit eq_refl).
  destruct (VerdictFacts.margin_shape sy c e Hfit) as (c' & e' & Em & Hm).
  unfold evaluate. rewrite Em. cbn [bind].
  rewrite (lt_finite p (Finite sy c' e') Fp eq_refl). cbn [bind].
  eexists. split; [reflexivity|].
  cbn [margin_of_safety_value is_worth_buying].
  rewrite (VerdictFacts.value_pos_sign sy cy ey Hcy),
    (VerdictFacts.value_neg_sign sy cy ey Hcy).
  rewrite !value_mag.
  pose proof (VerdictFacts.mag_nonneg c' e') as N'.
  pose proof (VerdictFacts.mag_nonneg c e) as N0.
  split; [|split].
  - intros ->. unfold qsign. rewrite !Qmult_1_l. now split.
  - intros ->. unfold qsign.
    setoid_replace (-1 * mag c e)%Q with (- mag c e)%Q by ring.
    setoid_replace (-1 * mag c' e')%Q with (- mag c' e')%Q by ring.
    split; [now apply Qopp_le_compat|now apply (Qopp_le_compat 0)].
  - destruct (value p ?= qsign sy * mag c' e')%Q eqn:E; try discriminate.
    intros _. rewrite <- Qlt_alt in E. destruct sy; unfold qsign in *.
    + exfalso.
      setoid_replace (-1 * mag c' e')%Q with (- mag c' e')%Q in E by ring.
      apply (Qopp_le_compat 0) in N'.
      exact (Qlt_irrefl _ (Qle_lt_trans _ _ _ Pp (Qlt_le_trans _ _ _ E N'))).
    + split; [reflexivity|]. rewrite Qmult_1_l in *.
      exact (Qlt_le_trans _ _ _ E Hm).
Qed.

Lemma buy_only_below_intrinsic_value_witness :
  exists r,
    evaluate (Finite false 20 0) (Finite false 3400 (-2)) = Return r
    /\ ((0 < value (Finite false 44 (-1)))%Q ->
        (0 <= value (margin_of_safety_value r))%Q
        /\ (value (margin_of_safety_value r) <= value (Finite false 3400 (-2)))%Q)
    /\ ((value (Finite false 44 (-1)) < 0)%Q ->
        (value (Finite false 3400 (-2)) <= value (margin_of_safety_value r))%Q
        /\ (value (margin_of_safety_value r) <= 0)%Q)
    /\ (is_worth_buying r = true ->
        (0 < value (Finite false 44 (-1)))%Q
        /\ (value (Finite false 20 0) < value (Finite false 3400 (-2)))%Q).
Proof.
  refine (buy_only_below_intrinsic_value
            (Finite false 20 0) (Finite false 2 0) (Finite false 10 (-2))
            (Finite false 44 (-1)) (Finite false 3400 (-2)) []
            eq_refl _ eq_refl eq_refl eq_refl _).
  - vm_compute. discriminate.
  - vm_compute. reflexivity.
Defined.


(** ** What an iteration can raise *)

Module SignalFacts.















Section Calls.
Variables W Page : Type.
Variable env : Env W Page.





End Calls.

End SignalFacts.




(** ** The requests of a run *)

Module TraceFacts.

Section Recorded.
Variables W Page : Type.
Variable env : Env W Page.

Lemma safe_request_trace url (st : state (W * list str)) r st' :
  safe_request (recording env) url st = (r, st') ->
  snd (world st') = snd (world st) ++ [url].
Proof.
  unfold safe_request, recording. cbn [http_get].
  destruct (http_get env url (fst (world st))) as [[page|] w];
    intros [= <- <-]; reflexivity.
Qed.

Lemma get_stock_price_trace url selector (st : state (W * list str)) r st' :
  get_stock_price (recording env) url selector st = (r, st') ->
  snd (world st') = snd (world st) ++ [url].
Proof.
  unfold get_stock_price, mbind, ret, logging, lift_logged.
  intros H. repeat (split_match H; try discriminate);
    injection H as <- <-;
    match goal with
    | E : safe_request _ _ _ = _ |- _ => apply safe_request_trace in E
    end; cbn [world]; congruence.
Qed.

Lemma get_financial_data_trace url selector (st : state (W * list str)) r st' :
  get_financial_data (recording env) url selector st = (r, st') ->
  snd (world st') = snd (world st) ++ [url].
Proof.
  unfold get_financial_data, mbind, ret, logging, lift_logged.
  intros H. repeat (split_match H; try discriminate);
    injection H as <- <-;
    match goal with
    | E : safe_request _ _ _ = _ |- _ => apply safe_request_trace in E
    end; cbn [world]; congruence.
Qed.

Ltac plan_prefix n :=
  exists n; split; [lia|]; split;
  [ unfold request_plan; cbn [firstn world] in *;
    repeat match goal with
           | E : snd (world _) = _ |- _ => rewrite E; clear E
           end;
    rewrite <- ?app_assoc; reflexivity
  | intros; congruence ].

Lemma ticker_body_trace ticker (st : state (W * list str)) res st' :
  ticker_body (recording env) ticker st = (res, st') ->
  exists n : nat,
    (1 <= n <= 4)%nat
    /\ snd (world st') = snd (world st) ++ firstn n (request_plan ticker)
    /\ (forall q r, res = Return (q, Some r) -> n = 4%nat).
Proof.
  unfold ticker_body, mbind, ret, print, logging, lift_logged, lift_outcome.
  intros H.
  repeat (split_match H; try discriminate);
    injection H as <- <-;
    repeat match goal with
           | E : get_stock_price _ _ _ _ = _ |- _ =>
               apply get_stock_price_trace in E
           | E : get_financial_data _ _ _ _ = _ |- _ =>
               apply get_financial_data_trace in E
           end;
    first [ plan_prefix 4%nat | plan_prefix 3%nat | plan_prefix 2%nat
          | plan_prefix 1%nat ].
Qed.

Lemma process_ticker_trace ticker (st : state (W * list str)) :
  exists n : nat,
    (1 <= n <= 4)%nat
    /\ snd (world (snd (process_ticker (recording env) ticker st)))
       = snd (world st) ++ firstn n (request_plan ticker)
    /\ (forall q r,
           fst (process_ticker (recording env) ticker st) = Some (q, Some r) ->
           n = 4%nat).
Proof.
  unfold process_ticker.
  destruct (ticker_body (recording env) ticker st) as [res st1] eqn:E.
  destruct (ticker_body_trace ticker st res st1 E) as (n & Hn & Ht & Hr).
  exists n. split; [exact Hn|].
  destruct res as [r|e]; cbn [fst snd world]; split; try exact Ht.
  - intros q r0 [= ->]. now apply (Hr q r0).
  - intros; discriminate.
Qed.

Lemma ticker_loop_trace tickers :
  forall worth_buying (st : state (W * list str)),
  exists added,
    snd (world (snd (ticker_loop (recording env) tickers worth_buying st)))
    = snd (world st) ++ added
    /\ (List.length tickers <= List.length added
        <= 4 * List.length tickers)%nat.
Proof.
  induction tickers as [|t rest IH]; intros wb st.
  - exists []. cbn. rewrite app_nil_r. split; [reflexivity|lia].
  - cbn [ticker_loop].
    destruct (process_ticker_trace t st) as (n & Hn & Ht & _).
    destruct (process_ticker (recording env) t st) as [r st1].
    cbn [snd] in Ht.
    destruct (IH (if buys r then wb ++ [t] else wb) st1)
      as (added & Ha & Hl).
    destruct (ticker_loop (recording env) rest _ st1) as [[results wb'] st2].
    cbn [snd] in *.
    exists (firstn n (request_plan t) ++ added).
    rewrite Ha, Ht, <- app_assoc. split; [reflexivity|].
    rewrite length_app, length_firstn. unfold request_plan.
    cbn [List.length]. lia.
Qed.

End Recorded.

Section Offline.
Variables W Page : Type.
Variable env : Env W Page.
Hypothesis down : forall url w, fst (http_get env url w) = None.

Lemma process_ticker_offline ticker st :
  fst (process_ticker env ticker st) = no_quote
  /\ log (snd (process_ticker env ticker st)) = log st ++ offline_log ticker
  /\ out (snd (process_ticker env ticker st))
     = out st ++ [Processing ticker].
Proof.
  unfold process_ticker, ticker_body, mbind, print, get_stock_price, mbind,
    safe_request, ret, logging.
  cbn [world log out].
  pose proof (down (quote_url ticker) (world st)) as Hd.
  destruct (http_get env (quote_url ticker) (world st)) as [r w].
  cbn [fst] in Hd. subst r. cbn. rewrite <- app_assoc. auto.
Qed.

Lemma ticker_loop_offline tickers :
  forall worth_buying st,
    fst (ticker_loop env tickers worth_buying st)
    = (map (fun t => (t, no_quote)) tickers, worth_buying)
    /\ log (snd (ticker_loop env tickers worth_buying st))
       = log st ++ flat_map offline_log tickers
    /\ out (snd (ticker_loop env tickers worth_buying st))
       = out st ++ map Processing tickers.
Proof.
  induction tickers as [|t rest IH]; intros wb st.
  - cbn. now rewrite !app_nil_r.
  - cbn [ticker_loop].
    destruct (process_ticker_offline t st) as (Hr & Hl & Ho).
    destruct (process_ticker env t st) as [r st1]. cbn [fst snd] in *.
    subst r. cbn [buys no_quote].
    destruct (IH wb st1) as (Ir & Il & Io).
    destruct (ticker_loop env rest wb st1) as [[results wb'] st2].
    cbn [fst snd] in *. injection Ir as -> ->.
    rewrite Il, Io, Hl, Ho. cbn [map flat_map].
    rewrite <- !app_assoc. auto.
Qed.

End Offline.

End TraceFacts.

(** X10: the requests of a run follow a fixed plan.  One iteration asks for
    a non-empty prefix of: the quote page (for the price), the quote page
    again (for the EPS), the analysis page, the bond yield page; it asks
    for all four whenever it ends with a result.  A run over n tickers
    therefore makes between n and 4n requests, and the bond page is
    requested anew for every ticker that gets that far. *)
Theorem requests_follow_plan :
  forall (W Page : Type) (env : Env W Page),
    (forall (ticker : str) (st : state (W * list str)),
        exists n : nat,
          (1 <= n <= 4)%nat
          /\ snd (world (snd (process_ticker (recording env) ticker st)))
             = snd (world st) ++ firstn n (request_plan ticker)
          /\ (forall q r,
                 fst (process_ticker (recording env) ticker st)
                 = Some (q, Some r) ->
                 n = 4%nat))
    /\ (forall (tickers worth_buying : list str) (st : state (W * list str)),
           exists added,
             snd (world (snd (ticker_loop (recording env) tickers
                                worth_buying st)))
             = snd (world st) ++ added
             /\ (List.length tickers <= List.length added
                 <= 4 * List.length tickers)%nat).
Proof.
  intros W Page env. split.
  - apply TraceFacts.process_ticker_trace.
  - intros tickers. apply TraceFacts.ticker_loop_trace.
Qed.

(** X11: with the network down (every request fails) each ticker costs one
    request: its iteration logs "Request failed" and "Stock price ... could
    not be retrieved", prints its "Processing" line only and yields no
    quote, no ticker is flagged, and [main], given a ticker list, prints
    the banner, one line per ticker and the none-found message. *)
Theorem network_down_run :
  forall (W Page : Type) (env : Env W Page),
    (forall url w, fst (http_get env url w) = None) ->
    (forall (tickers worth_buying : list str) (st : state W),
        fst (ticker_loop env tickers worth_buying st)
        = (map (fun t => (t, no_quote)) tickers, worth_buying)
        /\ log (snd (ticker_loop env tickers worth_buying st))
           = log st ++ flat_map offline_log tickers
        /\ out (snd (ticker_loop env tickers worth_buying st))
           = out st ++ map Processing tickers)
    /\ (forall (st : state W) (text : str) (items : list str),
           file_content env (lit "tickers.json") = Some text ->
           json_load env text = Return (JItems items) ->
           fst (main env st) = Return tt
           /\ out (snd (main env st))
              = out st ++ [ClearScreen; Banner] ++ map Processing items
                ++ [NoneFound]
           /\ log (snd (main env st))
              = log st ++ (INFO, ProcessingCount (List.length items))
                          :: flat_map offline_log items).
Proof.
  intros W Page env down. split.
  - intros tickers. now apply TraceFacts.ticker_loop_offline.
  - intros st text items Hf Hj.
    rewrite (main_unfold_items W Page env st text items Hf Hj).
    destruct (TraceFacts.ticker_loop_offline W Page env down items []
                (loop_entry st (List.length items))) as (Hr & Hl & Ho).
    destruct (ticker_loop env items [] _) as [[results wb] st'].
    cbn [fst snd] in *. injection Hr as -> ->.
    cbn [fst snd log out summary]. rewrite Hl, Ho. unfold loop_entry.
    cbn [log out]. rewrite <- !app_assoc. cbn [app]. auto.
Qed.

Lemma network_down_run_witness :
  (fst (ticker_loop down_env [lit "AAPL"; lit "MSFT"] [] (start tt))
   = (map (fun t => (t, no_quote)) [lit "AAPL"; lit "MSFT"], [])
   /\ log (snd (ticker_loop down_env [lit "AAPL"; lit "MSFT"] [] (start tt)))
      = log (start tt) ++ flat_map offline_log [lit "AAPL"; lit "MSFT"]
   /\ out (snd (ticker_loop down_env [lit "AAPL"; lit "MSFT"] [] (start tt)))
      = out (start tt) ++ map Processing [lit "AAPL"; lit "MSFT"])
  /\ (fst (main down_env (start tt)) = Return tt
      /\ out (snd (main down_env (start tt)))
         = out (start tt) ++ [ClearScreen; Banner]
           ++ map Processing [lit "AAPL"; lit "MSFT"] ++ [NoneFound]
      /\ log (snd (main down_env (start tt)))
         = log (start tt)
           ++ (INFO, ProcessingCount (List.length [lit "AAPL"; lit "MSFT"]))
              :: flat_map offline_log [lit "AAPL"; lit "MSFT"]).
Proof.
  refine (conj
            (proj1 (network_down_run unit unit down_env _)
               [lit "AAPL"; lit "MSFT"] [] (start tt))
            (proj2 (network_down_run unit unit down_env _)
               (start tt) (lit "[tickers]") [lit "AAPL"; lit "MSFT"] _ _));
    try (intros url w; reflexivity); vm_compute; reflexivity.
Defined.


(** ** The fetching stages and their log *)

Module FetchFacts.



End FetchFacts.


(** ** Screen layout *)

Module LayoutFacts.

Lemma length_spaces n : List.length (spaces n) = Z.to_nat n.
Proof. unfold spaces. apply repeat_length. Qed.

(** [marg & width & 1] is 1 when both are odd and 0 otherwise. *)
Lemma low_bit marg width :
  Z.land (Z.land marg width) 1 = Z.b2z (Z.odd marg && Z.odd width).
Proof.
  change 1 with (Z.ones 1) at 1. rewrite Z.land_ones by lia.
  change (2 ^ 1) with 2. rewrite <- Z.bit0_mod, Z.land_spec, !Z.bit0_odd.
  reflexivity.
Qed.

Lemma left_pad_bounds marg width :
  0 < marg ->
  let left := marg / 2 + Z.land (Z.land marg width) 1 in
  0 <= left <= marg /\ -1 <= left - (marg - left) <= 1.
Proof.
  intros Hm. cbv zeta. rewrite low_bit.
  pose proof (Z.div_mod marg 2 ltac:(lia)) as Hd.
  pose proof (Z.mod_pos_bound marg 2 ltac:(lia)) as Hb.
  rewrite <- Z.bit0_mod, Z.bit0_odd in Hd, Hb.
  destruct (Z.odd marg), (Z.odd width); cbn [andb Z.b2z] in *; lia.
Qed.

End LayoutFacts.

(** X13: [center_text] never cuts the text.  Its result is the colour code,
    the text between two runs of spaces, and the reset code; the runs fill
    the line up to the terminal width and differ by at most one space; a
    text at least as wide as the terminal gets no padding at all. *)
Theorem center_text_keeps_text :
  forall (terminal_width : Z) (text color : str),
    (exists l r : Z,
        0 <= l /\ 0 <= r /\ -1 <= l - r <= 1
        /\ l + r = Z.max 0 (terminal_width - Z.of_nat (List.length text))
        /\ center_text terminal_width text color
           = color ++ spaces l ++ text ++ spaces r ++ ENDC)
    /\ Z.of_nat (List.length (center text terminal_width))
       = Z.max terminal_width (Z.of_nat (List.length text))
    /\ (terminal_width <= Z.of_nat (List.length text) ->
        center_text terminal_width text color = color ++ text ++ ENDC).
Proof.
  intros width text color. unfold center_text, center. cbv zeta.
  destruct (Z.leb_spec width (Z.of_nat (List.length text))) as [Hw|Hw].
  - split; [|split; [lia|intros _; reflexivity]].
    exists 0, 0. split; [lia|]. split; [lia|]. split; [lia|].
    split; [lia|reflexivity].
  - pose proof (LayoutFacts.left_pad_bounds
                  (width - Z.of_nat (List.length text)) width ltac:(lia))
      as [Hl Hd]. cbv zeta in Hl, Hd.
    set (left := (width - Z.of_nat (List.length text)) / 2
                 + Z.land (Z.land (width - Z.of_nat (List.length text)) width) 1)
      in *.
    split; [|split; [|lia]].
    + exists left, (width - Z.of_nat (List.length text) - left).
      split; [lia|]. split; [lia|]. split; [lia|]. split; [lia|].
      now rewrite <- !app_assoc.
    + rewrite !length_app, !LayoutFacts.length_spaces. lia.
Qed.


(** ** Error branches that a run cannot reach *)

Module LogFacts.

Section Within.
Variable W : Type.
Variable P : log_entry -> bool.

Lemma within_nil A (m : M W A) :
  (forall st, log (snd (m st)) = log st) -> logs_within P m.
Proof.
  intros H st. exists []. now rewrite app_nil_r, H.
Qed.

Lemma within_ret A (a : A) : logs_within P (@ret W A a).
Proof. now apply within_nil. Qed.

Lemma within_print o : logs_within P (@print W o).
Proof. now apply within_nil. Qed.

Lemma within_print_all os : logs_within P (@print_all W os).
Proof. now apply within_nil. Qed.

Lemma within_lift_outcome A (c : outcome A) :
  logs_within P (@lift_outcome W A c).
Proof. now apply within_nil. Qed.

Lemma within_logging l m :
  P (l, m) = true -> logs_within P (@logging W l m).
Proof. intros H st. exists [(l, m)]. cbn. now rewrite H. Qed.

Lemma within_lift_logged A (c : logged A) :
  forallb P (snd c) = true -> logs_within P (@lift_logged W A c).
Proof. intros H st. exists (snd c). now split. Qed.

(** Sequencing, with what is known of the first call's result. *)
Lemma within_mbind A B (Q : A -> Prop) (m : M W A) (k : A -> M W B) :
  logs_within P m ->
  (forall st a, fst (m st) = Return a -> Q a) ->
  (forall a, Q a -> logs_within P (k a)) ->
  logs_within P (mbind m k).
Proof.
  intros Hm HQ Hk st. unfold mbind.
  destruct (Hm st) as (l1 & E1 & P1). specialize (HQ st).
  destruct (m st) as [[a|e] st1]; cbn [fst snd] in *; [|eauto].
  destruct (Hk a (HQ a eq_refl) st1) as (l2 & E2 & P2).
  exists (l1 ++ l2). rewrite E2, E1, <- app_assoc, forallb_app, P1, P2. auto.
Qed.

Lemma within_try_except A (body : M W A) (handler : exn -> M W A) :
  logs_within P body -> (forall e, logs_within P (handler e)) ->
  logs_within P (try_except body handler).
Proof.
  intros Hm Hk st. unfold try_except.
  destruct (Hm st) as (l1 & E1 & P1).
  destruct (body st) as [[a|e] st1]; cbn [fst snd] in *; [eauto|].
  destruct (Hk e st1) as (l2 & E2 & P2).
  exists (l1 ++ l2). rewrite E2, E1, <- app_assoc, forallb_app, P1, P2. auto.
Qed.

End Within.

(** The second parse of a price, through its string form, gives the price
    back. *)
Lemma reparse_price d : parse_stock_price (PDec d) = (Return (Some d), []).
Proof.
  unfold parse_stock_price. pose proof (plain_to_string d) as Hp.
  rewrite remove_char_id by now apply plain_no_comma.
  unfold strip. rewrite strip_by_id by now apply plain_no_space.
  now rewrite of_string_to_string.
Qed.

Lemma parse_stock_price_log a :
  forallb reachable_entry (snd (parse_stock_price a)) = true.
Proof.
  unfold parse_stock_price. destruct (of_string _); [reflexivity|].
  now destruct (caught_by_parser _).
Qed.

Lemma parse_float_log text :
  forallb reachable_entry (snd (parse_float text)) = true.
Proof.
  unfold parse_float. destruct (_ <- of_string _ ;; _)%py; [reflexivity|].
  now destruct (caught_by_parser _).
Qed.

(** With its three arguments given, the engine does not log the missing
    data error. *)
Lemma engine_log eps g y :
  forallb reachable_entry
    (snd (calculate_intrinsic_value (Some eps) (Some g) (Some y))) = true.
Proof.
  unfold calculate_intrinsic_value.
  now destruct (_ <- le_zero _ ;; _)%py as [[|]|].
Qed.

Ltac within :=
  repeat first
    [ apply within_ret | apply within_print | apply within_print_all
    | apply within_lift_outcome
    | apply within_logging; reflexivity
    | apply within_lift_logged;
      first [apply parse_stock_price_log | apply parse_float_log
            | apply engine_log]
    | apply (within_mbind _ _ _ _ (fun _ => True));
      [|intros; exact I|intros ? _]
    | match goal with
      | |- logs_within _ (match ?x with _ => _ end) => destruct x
      end ].

Section Calls.
Variables W Page : Type.
Variable env : Env W Page.

Lemma within_safe_request url :
  logs_within reachable_entry (safe_request env url).
Proof.
  intros st. unfold safe_request.
  destruct (http_get env url (world st)) as [[page|] w]; cbn [snd log].
  - exists []. now rewrite app_nil_r.
  - eexists. split; reflexivity.
Qed.

Lemma within_get_stock_price url selector :
  logs_within reachable_entry (get_stock_price env url selector).
Proof.
  unfold get_stock_price.
  repeat first [ apply within_safe_request | progress within ].
Qed.

Lemma within_get_financial_data url selector :
  logs_within reachable_entry (get_financial_data env url selector).
Proof.
  unfold get_financial_data.
  repeat first [ apply within_safe_request | progress within ].
Qed.

Lemma within_ticker_body ticker :
  logs_within reachable_entry (ticker_body env ticker).
Proof.
  unfold ticker_body.
  apply (within_mbind _ _ _ _ (fun _ => True));
    [within|intros; exact I|intros _ _].
  apply (within_mbind _ _ _ _ (fun _ => True));
    [apply within_get_stock_price|intros; exact I|intros [p0|] _].
  2: solve [within].
  apply (within_mbind _ _ _ _ (fun r => r = Some p0)).
  - within.
  - intros st a. unfold lift_logged. cbn [fst]. rewrite reparse_price.
    now intros [= <-].
  - intros a ->. cbv iota.
    repeat first [ apply within_safe_request | progress within ].
Qed.

Lemma within_process_ticker ticker st :
  exists l,
    log (snd (process_ticker env ticker st)) = log st ++ l
    /\ forallb reachable_entry l = true.
Proof.
  unfold process_ticker.
  destruct (within_ticker_body ticker st) as (l & E & Hl).
  destruct (ticker_body env ticker st) as [[r|e] st1]; cbn [snd log] in *;
    [eauto|].
  exists (l ++ [(ERROR, TickerFailed ticker e)]).
  rewrite E, <- app_assoc, forallb_app, Hl. auto.
Qed.

Lemma within_ticker_loop tickers :
  forall worth_buying st,
  exists l,
    log (snd (ticker_loop env tickers worth_buying st)) = log st ++ l
    /\ forallb reachable_entry l = true.
Proof.
  induction tickers as [|t rest IH]; intros wb st.
  - exists []. cbn. now rewrite app_nil_r.
  - cbn [ticker_loop].
    destruct (within_process_ticker t st) as (l1 & E1 & P1).
    destruct (process_ticker env t st) as [r st1].
    destruct (IH (if buys r then wb ++ [t] else wb) st1) as (l2 & E2 & P2).
    destruct (ticker_loop env rest _ st1) as [[results wb'] st2].
    cbn [snd] in *. exists (l1 ++ l2).
    rewrite E2, E1, <- app_assoc, forallb_app, P1, P2. auto.
Qed.

Lemma within_main_tail items :
  logs_within reachable_entry
    (fun st : state W =>
       let '(_, worth_buying, st') := ticker_loop env items [] st in
       print_all (summary worth_buying) st').
Proof.
  intros st. destruct (within_ticker_loop items [] st) as (l & E & Hl).
  destruct (ticker_loop env items [] st) as [[results wb] st1].
  cbn [snd log print_all] in *. eauto.
Qed.

Lemma read_tickers_log path :
  forallb reachable_entry (snd (read_tickers_from_json env path)) = true.
Proof.
  unfold read_tickers_from_json.
  destruct (match file_content env path with
            | Some text => json_load env text
            | None => Raise FileNotFoundError
            end) as [[]|[]]; reflexivity.
Qed.

Lemma within_main : logs_within reachable_entry (main env).
Proof.
  unfold main.
  apply within_try_except; [|intros e; now apply within_logging].
  repeat first
    [ apply within_main_tail
    | apply within_lift_logged, read_tickers_log
    | progress within ].
Qed.

End Calls.

End LogFacts.

(** X14: two error branches are dead code in a run of [main].  The price
    that [get_stock_price] returned is parsed a second time through its
    string form, which always gives the same price, so "Stock price for
    ... is not a number." is never logged; and the engine is only called
    with its three arguments present, so "Missing data for intrinsic value
    calculation." is never logged either.  The log of a run is the old log
    followed by entries none of which is one of the two. *)
Theorem unreachable_error_branches :
  forall (W Page : Type) (env : Env W Page) (st : state W),
    (exists l,
        log (snd (main env st)) = log st ++ l
        /\ forall lv m, In (lv, m) l -> unreachable_message m = false)
    /\ (forall ticker,
           exists l,
             log (snd (process_ticker env ticker st)) = log st ++ l
             /\ forall lv m, In (lv, m) l -> unreachable_message m = false).
Proof.
  intros W Page env st.
  assert (conv : forall l, forallb reachable_entry l = true ->
                 forall lv m, In (lv, m) l -> unreachable_message m = false).
  { intros l Hl lv m Hin. rewrite forallb_forall in Hl.
    specialize (Hl (lv, m) Hin). unfold reachable_entry in Hl.
    cbn [snd] in Hl. now destruct (unreachable_message m). }
  split.
  - destruct (LogFacts.within_main W Page env st) as (l & E & Hl). eauto.
  - intros ticker.
    destruct (LogFacts.within_process_ticker W Page env ticker st)
      as (l & E & Hl). eauto.
Qed.


(** ** From the figures of the pages to the intrinsic value *)

Module FigureFacts.
Local Open Scope Q_scope.

Lemma hundredth_pos q : 0 < q -> 0 < q / 100.
Proof.
  intros H. unfold Qdiv. apply Qmult_lt_0_compat; [exact H|reflexivity].
Qed.

Lemma not_zero_value y q :
  value y == q / 100 -> ~ q == 0 -> is_zero y = false.
Proof.
  intros Hv Hq. destruct y as [s c e| |]; try reflexivity.
  cbn [is_zero]. destruct (N.eqb_spec c 0) as [->|]; [|reflexivity].
  exfalso. apply Hq. rewrite value_zero in Hv.
  setoid_replace q with (q / 100 * 100) by field. rewrite <- Hv. ring.
Qed.

End FigureFacts.

(** X15: [parse_float] divides every figure by 100, the EPS and the bond
    yield as well as the growth rate, and in the formula the two extra
    divisions cancel.  For page texts that read as the decimals E, G and Y
    (E > 0, G > 0, Y not 0), with every intermediate result representable
    in the context, the value computed from the parsed figures is exactly
    E * (7 + G) * 4.4 / Y: the growth figure enters as the percentage
    shown, and EPS and yield as shown. *)
Theorem page_figures_to_value :
  forall (te tg ty : str) (de dg dy : Decimal),
    of_string (strip_percent (remove_char comma te)) = Return de ->
    of_string (strip_percent (remove_char comma tg)) = Return dg ->
    of_string (strip_percent (remove_char comma ty)) = Return dy ->
    is_finite de = true -> is_finite dg = true -> is_finite dy = true ->
    (0 < value de)%Q -> (0 < value dg)%Q -> ~ (value dy == 0)%Q ->
    representable (value de / 100) ->
    representable (value dg / 100) ->
    representable (value dy / 100) ->
    representable (value dg) ->
    representable (7 + value dg) ->
    representable (value de / 100 * (7 + value dg)) ->
    representable (value de / 100 * (7 + value dg) * (44 # 10)) ->
    representable (value de * (7 + value dg) * (44 # 10) / value dy) ->
    exists eps g y v,
      parse_float te = (Return (Some eps), [])
      /\ parse_float tg = (Return (Some g), [])
      /\ parse_float ty = (Return (Some y), [])
      /\ calculate_intrinsic_value (Some eps) (Some g) (Some y)
         = (Return (Some v), [])
      /\ (value v == value de * (7 + value dg) * (44 # 10) / value dy)%Q.
Proof.
  intros te tg ty de dg dy Pe Pg Py Fe Fg Fy He Hg Hy Re Rg Ry R1 R2 R3 R4 R5.
  destruct (parse_float_divides te de Pe Fe Re) as (eps & Ee & Fe' & Ve).
  destruct (parse_float_divides tg dg Pg Fg Rg) as (g & Eg & Fg' & Vg).
  destruct (parse_float_divides ty dy Py Fy Ry) as (y & Ey & Fy' & Vy).
  assert (Vg100 : (value g * 100 == value dg)%Q) by (rewrite Vg; field).
  destruct (engine_exact eps g y Fe' Fg' Fy') as (v & Ev & _ & Vv).
  - rewrite Ve. now apply FigureFacts.hundredth_pos.
  - rewrite Vg. now apply FigureFacts.hundredth_pos.
  - exact (FigureFacts.not_zero_value y (value dy) Vy Hy).
  - now rewrite Vg100.
  - now rewrite Vg100.
  - now rewrite Vg100, Ve.
  - now rewrite Vg100, Ve.
  - rewrite Vg100, Ve, Vy.
    setoid_replace (value de / 100 * (7 + value dg) * (44 # 10)
                    / (value dy / 100))%Q
      with (value de * (7 + value dg) * (44 # 10) / value dy)%Q
      by (field; exact Hy).
    exact R5.
  - exists eps, g, y, v. repeat (split; [assumption|]).
    rewrite Vv, Vg100, Ve, Vy. field. exact Hy.
Qed.

Lemma page_figures_to_value_witness :
  exists eps g y v,
    parse_float (lit "200") = (Return (Some eps), [])
    /\ parse_float (lit "10%") = (Return (Some g), [])
    /\ parse_float (lit "440") = (Return (Some y), [])
    /\ calculate_intrinsic_value (Some eps) (Some g) (Some y)
       = (Return (Some v), [])
    /\ (value v
        == value (Finite false 200 0) * (7 + value (Finite false 10 0))
           * (44 # 10) / value (Finite false 440 0))%Q.
Proof.
  refine (page_figures_to_value (lit "200") (lit "10%") (lit "440")
            (Finite false 200 0) (Finite false 10 0) (Finite false 440 0)
            _ _ _ eq_refl eq_refl eq_refl _ _ _ _ _ _ _ _ _ _ _).
  - vm_compute; reflexivity.
  - vm_compute; reflexivity.
  - vm_compute; reflexivity.
  - vm_compute; reflexivity.
  - vm_compute; reflexivity.
  - vm_compute; discriminate.
  - exists (Finite false 2 0).
    split; [vm_compute; intuition discriminate|vm_compute; reflexivity].
  - exists (Finite false 1 (-1)).
    split; [vm_compute; intuition discriminate|vm_compute; reflexivity].
  - exists (Finite false 44 (-1)).
    split; [vm_compute; intuition discriminate|vm_compute; reflexivity].
  - exists (Finite false 10 0).
    split; [vm_compute; intuition discriminate|vm_compute; reflexivity].
  - exists (Finite false 17 0).
    split; [vm_compute; intuition discriminate|vm_compute; reflexivity].
  - exists (Finite false 34 0).
    split; [vm_compute; intuition discriminate|vm_compute; reflexivity].
  - exists (Finite false 1496 (-1)).
    split; [vm_compute; intuition discriminate|vm_compute; reflexivity].
  - exists (Finite false 34 0).
    split; [vm_compute; intuition discriminate|vm_compute; reflexivity].
Defined.


(** ** The screen and the results *)

Module ScreenFacts.


Section Calls.
Variables W Page : Type.
Variable env : Env W Page.





End Calls.

End ScreenFacts.

